(** * Voice verification: the similarity clusterer

    A shallow embedding of [compare_embeddings] from
    [voice_verification_v2.py]: the pairwise cosine-similarity scan that
    groups embedding files into clusters, and the report printed from the
    resulting registry.

    Layout of the development:
    - the exception monad and the dictionary operations the scan uses;
    - the scan itself, generic in the similarity function (the program
      imports it from scikit-learn);
    - scikit-learn's [cosine_similarity], once over the real numbers and
      once over binary64 numbers with every operation rounded;
    - a precomputed-similarity instance on which the scan can be run;
    - paths, the embedding files of a directory and [resample_wav_files],
      with and without library calls that raise;
    - the theorems. *)

From Stdlib Require Import Floats.
From Stdlib Require Import Reals Lra QArith Ascii.
From stdpp Require Import base option list sets gmap strings relations sorting.

#[local] Set Warnings "-clear-no-such-hyp".

(** ** Exceptions *)

(** The only exception the scan can meet: the [ValueError] of scikit-learn's
    input checks.  [check_pairwise_arrays] raises it when the two rows
    differ in length ([ValueError("Incompatible dimension for X and Y
    matrices ...")], the failure the specification calls [ShapeMismatch]),
    when a row has no entry, and when an entry is not finite. *)
Inductive exn : Type :=
  | ShapeMismatch.

Inductive result (A : Type) : Type :=
  | Ok (a : A)
  | Raise (e : exn).
Arguments Ok {A} a.
Arguments Raise {A} e.

(** Sequencing: an exception raised by the first step ends the run. *)
Global Instance result_bind : MBind result := λ A B k m,
  match m with
  | Ok a => k a
  | Raise e => Raise e
  end.

(** ** The similarity interface

    [cosine_similarity] comes from [sklearn.metrics.pairwise]; the scan only
    calls it on two rows and compares the score with the threshold by
    [>=].  Both are kept abstract here and instantiated further down. *)
Class Similarity : Type := {
  embedding : Type;
  score : Type;
  cosine_similarity : embedding → embedding → result score;
  score_ge : score → score → bool
}.

(** ** The cluster registry

    [clusters] is a Python [dict] from cluster id to a [set] of file names.
    A dict iterates in insertion order, and [next(... clusters.items() ...)]
    depends on that order, so the registry is the list of its items in
    insertion order, every key occurring once. *)
Abbreviation cluster := (gset string).
Abbreviation registry := (list (nat * cluster)).
Abbreviation state := (registry * nat)%type.

(** [next((k for k, v in clusters.items() if file in v), None)] *)
Fixpoint find_cluster (file : string) (clusters : registry) : option nat :=
  match clusters with
  | [] => None
  | (k, v) :: rest =>
      if bool_decide (file ∈ v) then Some k else find_cluster file rest
  end.

(** [clusters[k]] *)
Fixpoint dict_get (k : nat) (clusters : registry) : option cluster :=
  match clusters with
  | [] => None
  | (k', v) :: rest => if decide (k' = k) then Some v else dict_get k rest
  end.

(** [clusters[k] = v]: a present key keeps its place, a new one goes last. *)
Fixpoint dict_set (k : nat) (v : cluster) (clusters : registry) : registry :=
  match clusters with
  | [] => [(k, v)]
  | (k', v') :: rest =>
      if decide (k' = k) then (k', v) :: rest else (k', v') :: dict_set k v rest
  end.

(** [clusters[k].add(..)] and [clusters[k].update(..)]: the set stored under
    [k] is changed in place.  The key is always one that [find_cluster] has
    just returned, so the lookup cannot raise [KeyError]. *)
Definition dict_alter (f : cluster → cluster) (k : nat) (clusters : registry)
  : registry :=
  map (λ kv, if decide (kv.1 = k) then (kv.1, f kv.2) else kv) clusters.

(** [del clusters[k]] *)
Definition dict_del (k : nat) (clusters : registry) : registry :=
  filter (λ kv, kv.1 ≠ k) clusters.

(** One input item: [os.path.basename(embedding_files[i])] together with
    [embeddings[i]], as lines 62-64 build them from the directory listing.
    The names of one directory are distinct; the theorems that need it say
    so by [NoDup]. *)
Abbreviation item := (string * embedding)%type.

Section Clusterer.
Context `{Sim : Similarity}.

(** Lines 74-92: what happens to the registry once a pair has passed the
    threshold test. *)
Definition register_match (file_i file_j : string) (st : state) : state :=
  let '(clusters, next_cluster_id) := st in
  let cluster_id_i := find_cluster file_i clusters in
  let cluster_id_j := find_cluster file_j clusters in
  match cluster_id_i, cluster_id_j with
  | None, None =>
      (dict_set next_cluster_id {[file_i; file_j]} clusters,
       S next_cluster_id)
  | Some ki, None =>
      (dict_alter (λ v, v ∪ {[file_j]}) ki clusters, next_cluster_id)
  | None, Some kj =>
      (dict_alter (λ v, v ∪ {[file_i]}) kj clusters, next_cluster_id)
  | Some ki, Some kj =>
      if decide (ki ≠ kj) then
        let merged :=
          dict_alter (λ v, v ∪ default ∅ (dict_get kj clusters)) ki clusters in
        (dict_del kj merged, next_cluster_id)
      else st
  end.

(** Lines 71-92: the body of the inner loop. *)
Definition process_pair (threshold : score) (x y : item) (st : state)
  : result state :=
  similarity_score ← cosine_similarity x.2 y.2;
  if score_ge similarity_score threshold
  then Ok (register_match x.1 y.1 st)
  else Ok st.

(** [for j in range(i + 1, len(embeddings))] *)
Fixpoint inner_loop (threshold : score) (x : item) (later : list item)
    (st : state) : result state :=
  match later with
  | [] => Ok st
  | y :: later' =>
      st' ← process_pair threshold x y st;
      inner_loop threshold x later' st'
  end.

(** [for i in range(len(embeddings))] *)
Fixpoint outer_loop (threshold : score) (items : list item) (st : state)
  : result state :=
  match items with
  | [] => Ok st
  | x :: later =>
      st' ← inner_loop threshold x later st;
      outer_loop threshold later st'
  end.

(** Lines 66-92.  The value is the registry the print loop then walks. *)
Definition compare_embeddings (items : list item) (threshold : score)
  : result registry :=
  st ← outer_loop threshold items ([], 0);
  Ok st.1.

(** *** The scan as one pass over the pairs *)

(** The pairs [(i, j)], [i < j], in the order the two loops visit them. *)
Fixpoint all_pairs (items : list item) : list (item * item) :=
  match items with
  | [] => []
  | x :: later => map (pair x) later ++ all_pairs later
  end.

Fixpoint scan (threshold : score) (pairs : list (item * item)) (st : state)
  : result state :=
  match pairs with
  | [] => Ok st
  | (x, y) :: pairs' =>
      st' ← process_pair threshold x y st;
      scan threshold pairs' st'
  end.

(** A state the scan passes through: the state after some initial segment
    [done] of the pairs has been processed. *)
Definition reachable (items : list item) (threshold : score)
    (done : list (item * item)) (st : state) : Prop :=
  ∃ todo, all_pairs items = done ++ todo ∧ scan threshold done ([], 0) = Ok st.

(** *** The similarity graph *)

(** The pair of rows passes the test at line 73. *)
Definition matches (threshold : score) (x y : item) : Prop :=
  ∃ s, cosine_similarity x.2 y.2 = Ok s ∧ score_ge s threshold = true.

(** An edge of the graph on identifiers, read off a list of pairs. *)
Definition edge_in (threshold : score) (pairs : list (item * item))
  : relation string :=
  λ a b, ∃ x y, (x, y) ∈ pairs ∧ matches threshold x y ∧ x.1 = a ∧ y.1 = b.

(** The edges of the whole input: items at positions [i < j] whose score is
    at least the threshold. *)
Definition similar (items : list item) (threshold : score) : relation string :=
  λ a b, ∃ i j u v,
    i < j ∧ items !! i = Some (a, u) ∧ items !! j = Some (b, v) ∧
    matches threshold (a, u) (b, v).

(** Joined by a path of edges, in either direction. *)
Definition connected (items : list item) (threshold : score)
  : relation string :=
  rtsc (similar items threshold).

(** *** Views of a registry *)

Definition covered (clusters : registry) : gset string := ⋃ clusters.*2.

Definition covered_count (clusters : registry) : nat :=
  sum_list (size <$> clusters.*2).

(** Two different entries never share a member (nor a key). *)
Definition pairwise_disjoint (clusters : registry) : Prop :=
  ∀ i j k1 c1 k2 c2,
    clusters !! i = Some (k1, c1) → clusters !! j = Some (k2, c2) →
    i ≠ j → k1 ≠ k2 ∧ c1 ## c2.

Definition in_exactly_one (clusters : registry) (a : string) : Prop :=
  ∃ i k c, clusters !! i = Some (k, c) ∧ a ∈ c ∧
    ∀ i' k' c', clusters !! i' = Some (k', c') → a ∈ c' → i' = i.

End Clusterer.

(** ** The invariant of the scan

    [E] is the set of edges seen so far.  The registry is a dict (keys
    unique, all below the counter), no cluster is empty, its clusters are
    pairwise disjoint, the members of a cluster are joined by paths of [E],
    every member is an end of some edge, and both ends of every edge sit in
    one cluster. *)
Record reg_inv (E : relation string) (st : state) : Prop := {
  inv_keys : NoDup st.1.*1;
  inv_fresh : ∀ k c, (k, c) ∈ st.1 → k < st.2;
  inv_nonempty : ∀ k c, (k, c) ∈ st.1 → c ≠ ∅;
  inv_disjoint : ∀ k1 c1 k2 c2,
    (k1, c1) ∈ st.1 → (k2, c2) ∈ st.1 → k1 ≠ k2 → c1 ## c2;
  inv_sound : ∀ k c a b, (k, c) ∈ st.1 → a ∈ c → b ∈ c → rtsc E a b;
  inv_touched : ∀ k c a, (k, c) ∈ st.1 → a ∈ c → ∃ b, sc E a b;
  inv_complete : ∀ a b, E a b → ∃ k c, (k, c) ∈ st.1 ∧ a ∈ c ∧ b ∈ c
}.

(** ** The report

    Lines 95-96 print, for every entry in dict order, the id and the members
    joined by commas.  The members are a Python [set] of [str]: the order in
    which [', '.join(files)] meets them is the set's own iteration order,
    which follows the string hashes of the running interpreter.  A run
    therefore comes with an enumeration of each set. *)
Definition set_order : Type := cluster → list string.


Definition report (order : set_order) (clusters : registry)
  : list (nat * list string) :=
  map (λ kv, (kv.1, order kv.2)) clusters.

Definition print_clusters `{Sim : Similarity} (order : set_order)
    (items : list item) (threshold : score) : result (list (nat * list string)) :=
  clusters ← compare_embeddings items threshold;
  Ok (report order clusters).

(** ** scikit-learn's [cosine_similarity], in exact arithmetic

    [cosine_similarity(X, Y)] first checks its arguments
    ([check_pairwise_arrays]: every row has at least one entry, every entry
    is finite, and the two rows have the same length; each failure is a
    [ValueError]), then L2-normalises both rows and returns their dot
    product.  [normalize] divides a row by its norm after
    [_handle_zeros_in_scale] has replaced a norm below ten machine epsilons,
    a zero norm among them, by [1.0]: such a row is left as it is and no
    division by zero takes place.

    Here the entries are real numbers and the operations exact, so every
    entry is finite and nothing is rounded.  The same function over
    binary64 numbers follows below. *)
Definition dot (x y : list R) : R := foldr Rplus 0%R (zip_with Rmult x y).

Definition row_norm (x : list R) : R := sqrt (dot x x).

(** [np.finfo(np.float64).eps], that is 2^-52. *)
Definition finfo_eps : R := (/ 4503599627370496)%R.

(** [scale[scale < 10 * eps] = 1.0] *)
Definition handle_zeros_in_scale (n : R) : R :=
  if Rlt_dec n (10 * finfo_eps) then 1%R else n.

Definition normalize (x : list R) : list R :=
  map (λ a, a / handle_zeros_in_scale (row_norm x))%R x.

(** [check_array(..., ensure_min_features=1)] on one row. *)
Definition check_array (x : list R) : bool := negb (length x =? 0).

Definition sklearn_cosine_similarity (x y : list R) : result R :=
  if check_array x && check_array y then
    if decide (length x = length y)
    then Ok (dot (normalize x) (normalize y))
    else Raise ShapeMismatch
  else Raise ShapeMismatch.

(** [similarity_score >= threshold] on reals. *)
Definition real_ge (s t : R) : bool := if Rge_dec s t then true else false.

Definition sklearn : Similarity :=
  {| embedding := list R; score := R;
     cosine_similarity := sklearn_cosine_similarity; score_ge := real_ge |}.

(** Every row has the same number of entries. *)
Definition same_dimension (items : list (string * list R)) : Prop :=
  ∀ x y, x ∈ items → y ∈ items → length x.2 = length y.2.

(** Every row has an entry. *)
Definition rows_not_empty (items : list (string * list R)) : Prop :=
  ∀ x, x ∈ items → x.2 ≠ [].

(** ** scikit-learn's [cosine_similarity], on binary64 numbers

    The same function on IEEE 754 double-precision numbers (arrays of dtype
    [float64]), every operation rounded to nearest: the input checks, the row norm as the square root
    of the sum of squares, the replacement of norms below [10 * eps], the
    division, and the dot product of the two normalised rows, accumulated
    from the left.  The order of accumulation of a longer row is the
    library's business; the rows used below have two entries. *)
Definition double_dot (x y : list float) : float :=
  foldl (λ acc ab, PrimFloat.add acc (PrimFloat.mul ab.1 ab.2)) 0%float
        (zip x y).

Definition double_row_norm (x : list float) : float :=
  PrimFloat.sqrt (double_dot x x).

(** [np.finfo(np.float64).eps] *)
Definition double_eps : float := 0x1p-52%float.

Definition double_handle_zeros_in_scale (n : float) : float :=
  if PrimFloat.ltb n (PrimFloat.mul 10 double_eps) then 1%float else n.

Definition double_normalize (x : list float) : list float :=
  map (λ a, PrimFloat.div a (double_handle_zeros_in_scale (double_row_norm x)))
      x.

Definition is_finite (a : float) : bool :=
  negb (PrimFloat.is_nan a || PrimFloat.is_infinity a).

(** [check_array]: at least one feature, no NaN and no infinity. *)
Definition double_check_array (x : list float) : bool :=
  negb (length x =? 0) && forallb is_finite x.

Definition double_cosine_similarity (x y : list float) : result float :=
  if double_check_array x && double_check_array y then
    if decide (length x = length y)
    then Ok (double_dot (double_normalize x) (double_normalize y))
    else Raise ShapeMismatch
  else Raise ShapeMismatch.

(** The program as it runs: scores and threshold are doubles, compared by
    the IEEE [>=]. *)
Definition sklearn_double : Similarity :=
  {| embedding := list float; score := float;
     cosine_similarity := double_cosine_similarity;
     score_ge := λ s t, PrimFloat.leb t s |}.

(** Two files with the same row, and two files with opposite rows. *)
Definition same_row_items : list (string * list float) :=
  [("a.npy", [1; 5]%float); ("b.npy", [1; 5]%float)].

Definition opposite_row_items : list (string * list float) :=
  [("a.npy", [1; 5]%float); ("b.npy", [-1; -5]%float)].

(** A file whose row holds a NaN. *)
Definition not_a_number_items : list (string * list float) :=
  [("a.npy", [1]%float); ("b.npy", [nan])].

(** The least double above 1. *)
Definition above_one : float := 0x1.0000000000001p+0%float.

(** ** Precomputed similarities

    The scan only looks at the scores, so it can be run on a table of
    pairwise similarities: an embedding is then a row index into the
    table. *)
Definition precomputed (matrix : nat → nat → Q) : Similarity :=
  {| embedding := nat; score := Q;
     cosine_similarity := λ i j, Ok (matrix i j);
     score_ge := λ s t, Qle_bool t s |}.

(** The specification's scenario: sim(a,b)=0.9, sim(a,c)=0.05, sim(b,c)=0.7
    and 0 on every pair with d. *)
Definition scenario_matrix (i j : nat) : Q :=
  match i, j with
  | 0, 1 | 1, 0 => 9 # 10
  | 0, 2 | 2, 0 => 5 # 100
  | 1, 2 | 2, 1 => 7 # 10
  | _, _ => if decide (i = j) then 1%Q else 0%Q
  end%nat.

Definition scenario_items : list (string * nat) :=
  [("a", 0); ("b", 1); ("c", 2); ("d", 3)]%nat.

(** Two clusters that form apart and meet later: a-d, then b-c, then b-d. *)
Definition bridge_matrix (i j : nat) : Q :=
  match i, j with
  | 0, 3 | 3, 0 => 8 # 10
  | 1, 2 | 2, 1 => 8 # 10
  | 1, 3 | 3, 1 => 8 # 10
  | _, _ => if decide (i = j) then 1%Q else 0%Q
  end%nat.

(** An input with a zero row: the file [a.npy] holds the vector [0.0]. *)
Definition zero_vector_items : list (string * list R) :=
  [("a.npy", [0%R]); ("b.npy", [1%R])].

(** Rows of different lengths. *)
Definition mismatched_items : list (string * list R) :=
  [("a.npy", [1%R]); ("b.npy", [1%R; 2%R])].

(** ** Two enumerations of a set

    Two of the orders in which an interpreter may walk the same set. *)
Definition iteration_order_a : set_order := elements.


(** ** More views of a run *)

(** The ids in dict order are increasing and below the counter. *)
Definition ids_ascending (st : state) : Prop :=
  StronglySorted lt st.1.*1 ∧ Forall (λ k, k < st.2) st.1.*1.

(** Two different files of the input whose rows pass the test, whichever
    comes first. *)
Definition linked `{Sim : Similarity} (items : list item) (threshold : score)
  : relation string :=
  λ a b, a ≠ b ∧ ∃ u v,
    (a, u) ∈ items ∧ (b, v) ∈ items ∧ matches threshold (a, u) (b, v).

(** ** Paths

    [os.path.join] and [os.path.basename] as [posixpath] defines them, on
    two arguments. *)

(** [s[n:]] *)
Fixpoint string_drop (n : nat) (s : string) : string :=
  match n, s with
  | 0, _ => s
  | S _, EmptyString => EmptyString
  | S n', String _ s' => string_drop n' s'
  end.

(** [s.startswith(prefix)] *)
Fixpoint startswith (prefix s : string) : bool :=
  match prefix, s with
  | EmptyString, _ => true
  | String _ _, EmptyString => false
  | String a prefix', String b s' => Ascii.eqb a b && startswith prefix' s'
  end.

(** [s.endswith(suffix)] *)
Definition endswith (suffix s : string) : bool :=
  (String.length suffix <=? String.length s) &&
  String.eqb (string_drop (String.length s - String.length suffix) s) suffix.

(** [p.rfind('/')], with [None] for -1. *)
Fixpoint rfind_sep (p : string) : option nat :=
  match p with
  | EmptyString => None
  | String c rest =>
      match rfind_sep rest with
      | Some i => Some (S i)
      | None => if Ascii.eqb c "/"%char then Some 0 else None
      end
  end.

(** [os.path.basename]: [i = p.rfind('/') + 1; return p[i:]]. *)
Definition basename (p : string) : string :=
  string_drop (match rfind_sep p with Some i => S i | None => 0 end) p.

(** [os.path.join(a, b)]: an absolute [b] replaces [a]; otherwise [b] is
    appended, after a separator unless [a] is empty or ends with one. *)
Definition join (a b : string) : string :=
  if startswith "/" b then b
  else if String.eqb a "" || endswith "/" a then a +:+ b
  else a +:+ "/" +:+ b.

(** A name as [os.listdir] returns them: it holds no separator. *)
Definition no_sep (name : string) : Prop := rfind_sep name = None.

(** ** The embedding files of a directory (lines 62-64, 74-75) *)

(** Lines 62-63, [listing] being what [os.listdir(embedding_directory)]
    returns. *)
Definition embedding_files (embedding_directory : string)
    (listing : list string) : list string :=
  map (join embedding_directory)
      (filter (λ file, endswith ".npy" file) listing).

(** Line 64 and the names of lines 74-75; [np_load file] stands for
    [np.load(file).reshape(1, -1)]. *)
Definition load_embeddings `{Sim : Similarity} (np_load : string → embedding)
    (files : list string) : list item :=
  map (λ file, (basename file, np_load file)) files.

(** [compare_embeddings(embedding_directory, threshold)] from the listing
    on. *)
Definition compare_embeddings_directory `{Sim : Similarity}
    (np_load : string → embedding) (embedding_directory : string)
    (listing : list string) (threshold : score) : result registry :=
  compare_embeddings
    (load_embeddings np_load (embedding_files embedding_directory listing))
    threshold.

(** ** [resample_wav_files] (lines 16-36)

    What a call in which no library call raises does to the file system:
    the audio files it exports, as (source, destination) in order, the text
    it writes to the list file, and the path of the list file, which it
    returns.  [listing] is what [os.listdir(wav_directory)] returns.  Calls
    that raise are covered by [resample_wav_files_run] below. *)
Record resample_outcome : Type := {
  exported : list (string * string);
  wav_list_text : string;
  wav_list_path : string
}.

Definition newline : string := String (ascii_of_nat 10) "".

Definition resample_wav_files (wav_directory resampled_directory : string)
    (listing : list string) : resample_outcome :=
  let wav_files :=
    map (join wav_directory) (filter (λ file, endswith ".wav" file) listing) in
  let local_wav_list_path := join resampled_directory "wav_list.txt" in
  let resampled_file wav_file :=
    join resampled_directory (basename wav_file) in
  {| exported := map (λ wav_file, (wav_file, resampled_file wav_file)) wav_files;
     wav_list_text :=
       foldr (λ wav_file text, resampled_file wav_file +:+ newline +:+ text)
             "" wav_files;
     wav_list_path := local_wav_list_path |}.

(** The same function with the library calls that can raise.  Which calls
    return is given by the environment: [listdir] is [os.listdir] ([None]
    when it raises), the other fields tell whether [os.makedirs], [open],
    line 32 ([AudioSegment.from_wav(...).set_frame_rate(16000)]), [export]
    and [f.write] return at the given paths.  [os.makedirs] raises on the
    empty path whatever the file system is. *)
Record audio_library : Type := {
  listdir : string → option (list string);
  makedirs_returns : string → bool;
  open_returns : string → bool;
  from_wav_returns : string → bool;
  export_returns : string → string → bool;
  write_returns : string → bool
}.

Inductive library_call : Type :=
| Listdir | Makedirs | Open | FromWav | Export | Write.

Inductive resample_end : Type :=
| Returned (path : string)
| Raised (call : library_call).

(** What a call has done when it ends: the exports that returned, the text
    of the list file ([None] when the file was never opened), and how the
    call ended. *)
Record resample_run : Type := {
  run_exported : list (string * string);
  list_file : option string;
  run_end : resample_end
}.

(** Lines 31-35: the exports that returned, the lines written, and the call
    that raised, if one did. *)
Fixpoint resample_loop (io : audio_library) (resampled_directory : string)
    (wav_files : list string)
    : list (string * string) * string * option library_call :=
  match wav_files with
  | [] => ([], "", None)
  | wav_file :: rest =>
      if from_wav_returns io wav_file then
        let resampled_file :=
          join resampled_directory (basename wav_file) in
        if export_returns io wav_file resampled_file then
          if write_returns io resampled_file then
            let '(exports, text, raised) :=
              resample_loop io resampled_directory rest in
            ((wav_file, resampled_file) :: exports,
             resampled_file +:+ newline +:+ text, raised)
          else ([(wav_file, resampled_file)], "", Some Write)
        else ([], "", Some Export)
      else ([], "", Some FromWav)
  end.

Definition resample_wav_files_run (io : audio_library)
    (wav_directory resampled_directory : string) : resample_run :=
  match listdir io wav_directory with
  | None => {| run_exported := []; list_file := None;
               run_end := Raised Listdir |}
  | Some listing =>
      let wav_files :=
        map (join wav_directory)
            (filter (λ file, endswith ".wav" file) listing) in
      if negb (String.eqb resampled_directory "")
         && makedirs_returns io resampled_directory then
        let local_wav_list_path := join resampled_directory "wav_list.txt" in
        if open_returns io local_wav_list_path then
          let '(exports, text, raised) :=
            resample_loop io resampled_directory wav_files in
          {| run_exported := exports; list_file := Some text;
             run_end := match raised with
                        | None => Returned local_wav_list_path
                        | Some call => Raised call
                        end |}
        else {| run_exported := []; list_file := None;
                run_end := Raised Open |}
      else {| run_exported := []; list_file := None;
              run_end := Raised Makedirs |}
  end.

(** Directory listings to run the directory-level functions on. *)
Definition sample_listing : list string := ["a.npy"; "notes.txt"; "b.npy"].

Definition sample_np_load (file : string) : nat :=
  if String.eqb file "emb/a.npy" then 0 else 1.

Definition sample_wav_listing : list string :=
  ["a.wav"; "wav_list.txt"; "b.wav"].

(** A file system on which every call returns, and one on which b.wav
    cannot be decoded. *)
Definition sample_library : audio_library :=
  {| listdir := λ directory,
       if String.eqb directory "in" then Some sample_wav_listing else None;
     makedirs_returns := λ _, true;
     open_returns := λ _, true;
     from_wav_returns := λ _, true;
     export_returns := λ _ _, true;
     write_returns := λ _, true |}.

Definition damaged_library : audio_library :=
  {| listdir := listdir sample_library;
     makedirs_returns := λ _, true;
     open_returns := λ _, true;
     from_wav_returns := λ wav_file, negb (String.eqb wav_file "in/b.wav");
     export_returns := λ _ _, true;
     write_returns := λ _, true |}.

(** * Theorems *)

(** ** The dictionary operations *)

Lemma NoDup_fst_unique {A B} (l : list (A * B)) (a : A) (b1 b2 : B) :
  NoDup l.*1 → (a, b1) ∈ l → (a, b2) ∈ l → b1 = b2.
Proof.
  assert (Hkey : ∀ (l' : list (A * B)) b, (a, b) ∈ l' → a ∈ l'.*1).
  { intros l' b Hin. apply list_elem_of_fmap. by exists (a, b). }
  induction l as [|[a' b'] rest IH]; csimpl.
  - intros _ Hin. by apply elem_of_nil in Hin.
  - intros [Ha' Hnd]%NoDup_cons [Heq1|H1]%elem_of_cons [Heq2|H2]%elem_of_cons;
      simplify_eq; try done.
    + exfalso. apply Ha'. by eapply Hkey.
    + exfalso. apply Ha'. by eapply Hkey.
    + by apply IH.
Qed.

Section RegistryFacts.
Implicit Types (clusters : registry) (k : nat) (c : cluster) (file : string).

Lemma find_cluster_Some file clusters k :
  find_cluster file clusters = Some k →
  ∃ c, (k, c) ∈ clusters ∧ file ∈ c.
Proof.
  induction clusters as [|[k' v] rest IH]; simpl; [done|].
  case_bool_decide as Hin.
  - intros [= <-]. exists v. split; [left | done].
  - intros Hfind. destruct (IH Hfind) as (c & Hc & Hfile).
    exists c. split; [by right | done].
Qed.

Lemma find_cluster_None file clusters :
  find_cluster file clusters = None ↔ ∀ k c, (k, c) ∈ clusters → file ∉ c.
Proof.
  induction clusters as [|[k' v] rest IH]; simpl.
  - split; [|done]. intros _ k c Hin. by apply elem_of_nil in Hin.
  - case_bool_decide as Hin; split.
    + done.
    + intros Hall. exfalso. by apply (Hall k' v); [left|].
    + intros Hnone k c [[= -> ->]|Hrest]%elem_of_cons; [done|].
      by apply (proj1 IH Hnone k c).
    + intros Hall. apply IH. intros k c Hkc. apply (Hall k c). by right.
Qed.

Lemma find_cluster_is_Some file clusters k c :
  (k, c) ∈ clusters → file ∈ c → is_Some (find_cluster file clusters).
Proof.
  intros Hkc Hfile. destruct (find_cluster file clusters) eqn:Hfind; [by eexists|].
  exfalso. by apply (proj1 (find_cluster_None _ _) Hfind k c).
Qed.

Lemma elem_of_dict_alter f k0 clusters k c' :
  (k, c') ∈ dict_alter f k0 clusters ↔
  ∃ c, (k, c) ∈ clusters ∧ c' = if decide (k = k0) then f c else c.
Proof.
  unfold dict_alter. rewrite list_elem_of_fmap. split.
  - intros ([k1 c1] & Heq & Hin). simpl in Heq. exists c1.
    revert Heq. case_decide as Hk; intros [= -> ->].
    + by rewrite decide_True.
    + by rewrite decide_False.
  - intros (c & Hin & ->). exists (k, c). split; [|done]. simpl.
    by destruct (decide (k = k0)).
Qed.

Lemma dict_alter_keys f k0 clusters :
  (dict_alter f k0 clusters).*1 = clusters.*1.
Proof.
  unfold dict_alter. induction clusters as [|[k c] rest IH]; [done|].
  csimpl. rewrite IH. by destruct (decide (k = k0)).
Qed.

Lemma elem_of_dict_del k0 clusters k c :
  (k, c) ∈ dict_del k0 clusters ↔ (k, c) ∈ clusters ∧ k ≠ k0.
Proof. unfold dict_del. rewrite list_elem_of_filter. simpl. tauto. Qed.

Lemma dict_del_keys_NoDup k0 clusters :
  NoDup clusters.*1 → NoDup (dict_del k0 clusters).*1.
Proof.
  intros Hnd. eapply sublist_NoDup; [exact Hnd|].
  unfold dict_del. apply fmap_sublist, sublist_filter.
Qed.

Lemma dict_set_fresh k v clusters :
  k ∉ clusters.*1 → dict_set k v clusters = clusters ++ [(k, v)].
Proof.
  induction clusters as [|[k' v'] rest IH]; simpl; [done|].
  intros Hk. apply not_elem_of_cons in Hk as [Hne Hk].
  rewrite decide_False by done. by rewrite IH.
Qed.

Lemma elem_of_keys clusters k c : (k, c) ∈ clusters → k ∈ clusters.*1.
Proof. intros Hin. apply list_elem_of_fmap. by exists (k, c). Qed.

(** In a dict a key has one value. *)
Lemma unique_value clusters k c1 c2 :
  NoDup clusters.*1 → (k, c1) ∈ clusters → (k, c2) ∈ clusters → c1 = c2.
Proof. apply NoDup_fst_unique. Qed.

Lemma dict_get_Some clusters k c :
  dict_get k clusters = Some c → (k, c) ∈ clusters.
Proof.
  induction clusters as [|[k' v] rest IH]; simpl; [done|].
  case_decide as Hk.
  - intros [= <-]. subst. by left.
  - intros Hget. right. by apply IH.
Qed.

Lemma elem_of_dict_get clusters k c :
  NoDup clusters.*1 → (k, c) ∈ clusters → dict_get k clusters = Some c.
Proof.
  intros Hnd Hin. destruct (dict_get k clusters) as [c'|] eqn:Hget.
  - f_equal. eapply unique_value; eauto using dict_get_Some.
  - exfalso. clear Hnd. induction clusters as [|[k' v] rest IH]; simpl in *.
    + by apply elem_of_nil in Hin.
    + case_decide; [done|].
      apply elem_of_cons in Hin as [[= -> ->]|Hin]; [done|by apply IH].
Qed.

Lemma dict_get_alter f k0 clusters k :
  dict_get k (dict_alter f k0 clusters) =
  if decide (k = k0) then f <$> dict_get k clusters else dict_get k clusters.
Proof.
  unfold dict_alter. induction clusters as [|[k' v] rest IH]; simpl.
  - by case_decide.
  - destruct (decide (k' = k0)) as [->|Hne]; simpl.
    + destruct (decide (k0 = k)) as [<-|Hne']; [by rewrite decide_True|].
      rewrite IH. done.
    + destruct (decide (k' = k)) as [->|Hne'].
      * by rewrite decide_False.
      * apply IH.
Qed.

Lemma dict_get_del k0 clusters k :
  dict_get k (dict_del k0 clusters) =
  if decide (k = k0) then None else dict_get k clusters.
Proof.
  unfold dict_del. induction clusters as [|[k' v] rest IH].
  - simpl. by case_decide.
  - rewrite filter_cons. simpl. destruct (decide (k' ≠ k0)) as [Hne|Heq]; simpl.
    + destruct (decide (k' = k)) as [->|Hne'].
      * by rewrite decide_False.
      * apply IH.
    + apply dec_stable in Heq as ->. rewrite IH.
      destruct (decide (k = k0)) as [->|Hne']; [done|].
      by rewrite decide_False.
Qed.
End RegistryFacts.

(** ** The invariant along the scan *)

Lemma rtsc_mono {A} (R R' : relation A) x y :
  (∀ a b, R a b → R' a b) → rtsc R x y → rtsc R' x y.
Proof.
  intros Hsub. induction 1 as [|x y z [Hxy|Hyx] _ IH]; [done|..].
  - transitivity y; [apply rtsc_lr; auto | exact IH].
  - transitivity y; [apply rtsc_rl; auto | exact IH].
Qed.

Lemma sc_mono {A} (R R' : relation A) x y :
  (∀ a b, R a b → R' a b) → sc R x y → sc R' x y.
Proof. intros Hsub [Hxy|Hyx]; [left|right]; auto. Qed.

Section InvariantStep.
Implicit Types (E : relation string) (st : state) (k : nat) (c : cluster).

Lemma reg_inv_init : reg_inv (λ _ _, False) ([], 0).
Proof.
  split; simpl.
  - constructor.
  - intros k c Hin. by apply elem_of_nil in Hin.
  - intros k c Hin. by apply elem_of_nil in Hin.
  - intros k1 c1 k2 c2 Hin. by apply elem_of_nil in Hin.
  - intros k c a b Hin. by apply elem_of_nil in Hin.
  - intros k c a Hin. by apply elem_of_nil in Hin.
  - intros a b [].
Qed.

Lemma reg_inv_ext E E' st :
  (∀ a b, E a b ↔ E' a b) → reg_inv E st → reg_inv E' st.
Proof.
  intros HE [Hk Hf Hn Hd Hs Ht Hc]. split; try done.
  - intros k c a b Hin Ha Hb.
    eapply rtsc_mono; [|by eapply Hs]. intros ??. apply HE.
  - intros k c a Hin Ha. destruct (Ht k c a Hin Ha) as [b Hb].
    exists b. eapply sc_mono; [|exact Hb]. intros ??. apply HE.
  - intros a b Hab. apply Hc. by apply HE.
Qed.

(** The owner found by the linear search is the entry that holds the file. *)
Lemma reg_inv_owner E st file k c :
  reg_inv E st → find_cluster file st.1 = Some k → (k, c) ∈ st.1 → file ∈ c.
Proof.
  intros Hinv Hfind Hin. destruct (find_cluster_Some _ _ _ Hfind) as (c' & Hc' & Hfile).
  by rewrite (unique_value _ _ _ _ (inv_keys _ _ Hinv) Hin Hc').
Qed.

Lemma reg_inv_same_entry E st file k1 c1 k2 c2 :
  reg_inv E st → (k1, c1) ∈ st.1 → (k2, c2) ∈ st.1 →
  file ∈ c1 → file ∈ c2 → k1 = k2 ∧ c1 = c2.
Proof.
  intros Hinv H1 H2 Hf1 Hf2.
  destruct (decide (k1 = k2)) as [->|Hne].
  - split; [done|]. eapply unique_value; eauto using inv_keys.
  - exfalso. pose proof (inv_disjoint _ _ Hinv _ _ _ _ H1 H2 Hne). set_solver.
Qed.

(** A file [z] owned by nobody joins the cluster of its partner [w]. *)
Lemma add_member_inv E E' p q w z reg nxt k0 :
  reg_inv E (reg, nxt) →
  (∀ a b, E' a b ↔ E a b ∨ (a = p ∧ b = q)) →
  (w = p ∧ z = q) ∨ (w = q ∧ z = p) →
  find_cluster w reg = Some k0 →
  find_cluster z reg = None →
  reg_inv E' (dict_alter (λ v, v ∪ {[z]}) k0 reg, nxt).
Proof.
  intros Hinv HE Hdir Hw Hz.
  assert (Hsub : ∀ a b, E a b → E' a b) by (intros; apply HE; auto).
  assert (Hwz : sc E' w z).
  { destruct Hdir as [[-> ->]|[-> ->]]; [left|right]; apply HE; auto. }
  assert (Hrwz : rtsc E' w z) by (by apply rtc_once).
  pose proof (inv_keys _ _ Hinv) as Hk.
  pose proof (inv_fresh _ _ Hinv) as Hf.
  pose proof (inv_nonempty _ _ Hinv) as Hn.
  pose proof (inv_disjoint _ _ Hinv) as Hd.
  pose proof (λ k c a b H1 H2 H3,
    rtsc_mono _ _ _ _ Hsub (inv_sound _ _ Hinv k c a b H1 H2 H3)) as Hs.
  assert (Ht : ∀ k c a, (k, c) ∈ reg → a ∈ c → ∃ b, sc E' a b).
  { intros k c a H1 H2. destruct (inv_touched _ _ Hinv k c a H1 H2) as [b Hb].
    exists b. by eapply sc_mono. }
  pose proof (inv_complete _ _ Hinv) as Hc.
  simpl in *.
  destruct (find_cluster_Some _ _ _ Hw) as (c0 & Hc0 & Hwc0).
  pose proof (proj1 (find_cluster_None _ _) Hz) as Hzn.
  assert (Hto_w : ∀ a, a ∈ c0 ∪ {[z]} → rtsc E' a w).
  { intros a [Ha|Ha%elem_of_singleton]%elem_of_union.
    - exact (Hs _ _ _ _ Hc0 Ha Hwc0).
    - subst a. by symmetry. }
  assert (Hnew : (k0, c0 ∪ {[z]}) ∈ dict_alter (λ v, v ∪ {[z]}) k0 reg).
  { apply elem_of_dict_alter. exists c0. by rewrite decide_True. }
  split; simpl.
  - by rewrite dict_alter_keys.
  - intros k c' (c & Hin & _)%elem_of_dict_alter. by eapply Hf.
  - intros k c' (c & Hin & ->)%elem_of_dict_alter.
    pose proof (Hn _ _ Hin). case_decide; set_solver.
  - intros k1 c1' k2 c2' (c1 & H1 & ->)%elem_of_dict_alter
      (c2 & H2 & ->)%elem_of_dict_alter Hk12.
    pose proof (Hd _ _ _ _ H1 H2 Hk12).
    pose proof (Hzn _ _ H1). pose proof (Hzn _ _ H2).
    repeat case_decide; subst; set_solver.
  - intros k c' a b (c & H1 & ->)%elem_of_dict_alter Ha Hb.
    case_decide as Hk0; [|exact (Hs _ _ _ _ H1 Ha Hb)]. subst k.
    rewrite (unique_value _ _ _ _ Hk H1 Hc0) in Ha, Hb.
    transitivity w; [|symmetry]; by apply Hto_w.
  - intros k c' a (c & H1 & ->)%elem_of_dict_alter Ha.
    case_decide as Hk0; [|exact (Ht _ _ _ H1 Ha)]. subst k.
    apply elem_of_union in Ha as [Ha|Ha%elem_of_singleton];
      [exact (Ht _ _ _ H1 Ha)|]. subst a. exists w. by symmetry.
  - intros a b [Hab|[-> ->]]%HE.
    + destruct (Hc _ _ Hab) as (k & c & Hin & Ha & Hb).
      exists k, (if decide (k = k0) then c ∪ {[z]} else c). split.
      { apply elem_of_dict_alter. eauto. }
      case_decide; set_solver.
    + exists k0, (c0 ∪ {[z]}). split; [done|].
      destruct Hdir as [[-> ->]|[-> ->]]; set_solver.
Qed.

Lemma register_match_inv E E' x y st :
  reg_inv E st →
  (∀ a b, E' a b ↔ E a b ∨ (a = x ∧ b = y)) →
  reg_inv E' (register_match x y st).
Proof.
  destruct st as [reg nxt]. intros Hinv HE.
  assert (Hsub : ∀ a b, E a b → E' a b) by (intros; apply HE; auto).
  assert (Hxy : E' x y) by (apply HE; auto).
  assert (Hrxy : rtsc E' x y) by (by apply rtsc_lr).
  assert (Hryx : rtsc E' y x) by (by apply rtsc_rl).
  pose proof (inv_keys _ _ Hinv) as Hk.
  pose proof (inv_fresh _ _ Hinv) as Hf.
  pose proof (inv_nonempty _ _ Hinv) as Hn.
  pose proof (inv_disjoint _ _ Hinv) as Hd.
  pose proof (λ k c a b H1 H2 H3, rtsc_mono _ _ _ _ Hsub (inv_sound _ _ Hinv k c a b H1 H2 H3)) as Hs.
  assert (Ht : ∀ k c a, (k, c) ∈ reg → a ∈ c → ∃ b, sc E' a b).
  { intros k c a H1 H2. destruct (inv_touched _ _ Hinv k c a H1 H2) as [b Hb].
    exists b. by eapply sc_mono. }
  pose proof (inv_complete _ _ Hinv) as Hc.
  simpl in *. unfold register_match.
  destruct (find_cluster x reg) as [ki|] eqn:Hi;
    destruct (find_cluster y reg) as [kj|] eqn:Hj.
  - (* both already own a cluster *)
    destruct (find_cluster_Some _ _ _ Hi) as (ci & Hci & Hxi).
    destruct (find_cluster_Some _ _ _ Hj) as (cj & Hcj & Hyj).
    assert (Hto_x : ∀ a, a ∈ ci ∪ cj → rtsc E' a x).
    { intros a [Ha|Ha]%elem_of_union.
      - exact (Hs _ _ _ _ Hci Ha Hxi).
      - transitivity y; [exact (Hs _ _ _ _ Hcj Ha Hyj) | done]. }
    case_decide as Hne.
    + rewrite (elem_of_dict_get _ _ _ Hk Hcj). simpl.
      assert (Hmem : ∀ k c', (k, c') ∈ dict_del kj (dict_alter (λ v, v ∪ cj) ki reg) ↔
        k ≠ kj ∧ ∃ c, (k, c) ∈ reg ∧ c' = if decide (k = ki) then c ∪ cj else c).
      { intros k c'. rewrite elem_of_dict_del, elem_of_dict_alter. tauto. }
      split; simpl.
      * apply dict_del_keys_NoDup. by rewrite dict_alter_keys.
      * intros k c' (_ & c & Hin & _)%Hmem. by eapply Hf.
      * intros k c' (_ & c & Hin & ->)%Hmem.
        pose proof (Hn _ _ Hin). case_decide; set_solver.
      * intros k1 c1' k2 c2' (Hk1 & c1 & H1 & ->)%Hmem (Hk2 & c2 & H2 & ->)%Hmem Hk12.
        pose proof (Hd _ _ _ _ H1 H2 Hk12).
        pose proof (Hd _ _ _ _ H1 Hcj Hk1).
        pose proof (Hd _ _ _ _ H2 Hcj Hk2).
        repeat case_decide; subst; set_solver.
      * intros k c' a b (Hk1 & c & H1 & ->)%Hmem Ha Hb.
        case_decide as Hki; [|by eapply Hs]. subst k.
        rewrite (unique_value _ _ _ _ Hk H1 Hci) in Ha, Hb.
        transitivity x; [|symmetry]; by apply Hto_x.
      * intros k c' a (Hk1 & c & H1 & ->)%Hmem Ha.
        case_decide as Hki; [|by eapply Ht]. subst k.
        apply elem_of_union in Ha as [Ha|Ha];
          [exact (Ht _ _ _ H1 Ha) | exact (Ht _ _ _ Hcj Ha)].
      * assert (Hmerged : (ki, ci ∪ cj) ∈ dict_del kj (dict_alter (λ v, v ∪ cj) ki reg)).
        { apply Hmem. split; [done|]. exists ci. by rewrite decide_True. }
        intros a b [Hab|[-> ->]]%HE.
        -- destruct (Hc _ _ Hab) as (k & c & Hin & Ha & Hb).
           destruct (decide (k = kj)) as [->|Hkj].
           { rewrite (unique_value _ _ _ _ Hk Hin Hcj) in Ha, Hb.
             exists ki, (ci ∪ cj). set_solver. }
           exists k, (if decide (k = ki) then c ∪ cj else c). split.
           { apply Hmem. eauto. }
           case_decide; set_solver.
        -- exists ki, (ci ∪ cj). set_solver.
    + subst kj.
      rewrite (unique_value _ _ _ _ Hk Hcj Hci) in Hyj.
      split; simpl; try done.
      intros a b [Hab|[-> ->]]%HE; [by apply Hc|]. by exists ki, ci.
  - eapply add_member_inv; eauto.
  - eapply add_member_inv; eauto.
  - (* a new cluster *)
    pose proof (proj1 (find_cluster_None _ _) Hi) as Hxn.
    pose proof (proj1 (find_cluster_None _ _) Hj) as Hyn.
    assert (Hnew : nxt ∉ reg.*1).
    { intros (kv & Hkv & Hin)%list_elem_of_fmap. destruct kv as [k c]; simpl in *; subst.
      specialize (Hf _ _ Hin). lia. }
    rewrite dict_set_fresh by done.
    split; simpl.
    + rewrite fmap_app. apply NoDup_app. split; [done|]. split.
      * intros k Hin Hin'. apply list_elem_of_singleton in Hin'. by subst.
      * apply NoDup_singleton.
    + intros k c [Hin|Hin%list_elem_of_singleton]%elem_of_app.
      * specialize (Hf _ _ Hin). lia.
      * injection Hin as -> ->. lia.
    + intros k c [Hin|Hin%list_elem_of_singleton]%elem_of_app.
      * by eapply Hn.
      * injection Hin as -> ->. set_solver.
    + intros k1 c1 k2 c2 [H1|H1%list_elem_of_singleton]%elem_of_app
        [H2|H2%list_elem_of_singleton]%elem_of_app Hne; simplify_eq.
      * by eapply Hd.
      * specialize (Hxn _ _ H1). specialize (Hyn _ _ H1). set_solver.
      * specialize (Hxn _ _ H2). specialize (Hyn _ _ H2). set_solver.
    + intros k c a b [Hin|Hin%list_elem_of_singleton]%elem_of_app Ha Hb.
      * by eapply Hs.
      * simplify_eq. 
        assert (a = x ∨ a = y) as [->| ->] by set_solver;
        assert (b = x ∨ b = y) as [->| ->] by set_solver; done.
    + intros k c a [Hin|Hin%list_elem_of_singleton]%elem_of_app Ha.
      * by eapply Ht.
      * simplify_eq. assert (a = x ∨ a = y) as [->| ->] by set_solver.
        -- exists y. by left.
        -- exists x. by right.
    + intros a b [Hab|[-> ->]]%HE.
      * destruct (Hc _ _ Hab) as (k & c & Hin & Ha & Hb).
        exists k, c. split; [|done]. apply elem_of_app. by left.
      * exists nxt, {[x; y]}. split; [|set_solver].
        apply elem_of_app. right. by apply list_elem_of_singleton.
Qed.
End InvariantStep.

(** ** The two loops are one pass over [all_pairs] *)

Section Scan.
Context `{Sim : Similarity}.
Implicit Types (threshold : score) (items : list item) (st : state).
Implicit Types (pairs : list (item * item)).

Lemma scan_app threshold pairs1 pairs2 st :
  scan threshold (pairs1 ++ pairs2) st =
  (st' ← scan threshold pairs1 st; scan threshold pairs2 st').
Proof.
  revert st. induction pairs1 as [|[x y] pairs1 IH]; intros st; simpl; [done|].
  destruct (process_pair threshold x y st) as [st1|e]; simpl; [apply IH|done].
Qed.

Lemma inner_loop_scan threshold x later st :
  inner_loop threshold x later st = scan threshold (map (pair x) later) st.
Proof.
  revert st. induction later as [|y later IH]; intros st; simpl; [done|].
  destruct (process_pair threshold x y st) as [st1|e]; simpl; [apply IH|done].
Qed.

Lemma outer_loop_scan threshold items st :
  outer_loop threshold items st = scan threshold (all_pairs items) st.
Proof.
  revert st. induction items as [|x later IH]; intros st; simpl; [done|].
  rewrite scan_app, inner_loop_scan.
  destruct (scan threshold (map (pair x) later) st) as [st1|e]; simpl;
    [apply IH|done].
Qed.

Lemma compare_embeddings_scan items threshold clusters :
  compare_embeddings items threshold = Ok clusters ↔
  ∃ n, scan threshold (all_pairs items) ([], 0) = Ok (clusters, n).
Proof.
  unfold compare_embeddings. rewrite outer_loop_scan.
  destruct (scan threshold (all_pairs items) ([], 0)) as [[reg n]|e]; simpl.
  - split.
    + intros [= <-]. by exists n.
    + intros (n' & [= -> _]). done.
  - split; [done|]. by intros (n & ?).
Qed.

Lemma elem_of_all_pairs items x y :
  (x, y) ∈ all_pairs items ↔
  ∃ i j, i < j ∧ items !! i = Some x ∧ items !! j = Some y.
Proof.
  induction items as [|z later IH]; simpl.
  - split; [by intros ?%elem_of_nil|]. by intros (i & j & _ & ? & _).
  - rewrite elem_of_app, list_elem_of_fmap, IH. split.
    + intros [(y' & [= -> ->] & Hy)|(i & j & Hij & Hi & Hj)].
      * apply list_elem_of_lookup in Hy as [j Hj].
        exists 0, (S j). repeat split; [lia|done..].
      * exists (S i), (S j). repeat split; [lia|done..].
    + intros (i & j & Hij & Hi & Hj). destruct j as [|j]; [lia|].
      destruct i as [|i]; simpl in *.
      * left. exists y. split; [congruence|]. apply list_elem_of_lookup. eauto.
      * right. exists i, j. repeat split; [lia|done..].
Qed.

Lemma edge_in_all_pairs items threshold a b :
  edge_in threshold (all_pairs items) a b ↔ similar items threshold a b.
Proof.
  unfold edge_in, similar. split.
  - intros ([a' u] & [b' v] & (i & j & Hij & Hi & Hj)%elem_of_all_pairs
      & Hm & <- & <-). simpl. by exists i, j, u, v.
  - intros (i & j & u & v & Hij & Hi & Hj & Hm).
    exists (a, u), (b, v). repeat split; [|done]. apply elem_of_all_pairs. eauto.
Qed.

(** *** The invariant along the pass *)

Lemma process_pair_inv threshold done x y st st' :
  reg_inv (edge_in threshold done) st →
  process_pair threshold x y st = Ok st' →
  reg_inv (edge_in threshold (done ++ [(x, y)])) st'.
Proof.
  intros Hinv. unfold process_pair.
  destruct (cosine_similarity x.2 y.2) as [s|e] eqn:Hcos; simpl; [|done].
  destruct (score_ge s threshold) eqn:Hge; intros [= <-].
  - eapply register_match_inv; [exact Hinv|]. intros a b. unfold edge_in. split.
    + intros (x' & y' & [Hin|[= -> ->]%list_elem_of_singleton]%elem_of_app
        & Hm & Ha & Hb); [left|right; done].
      by exists x', y'.
    + intros [(x' & y' & Hin & Hm & Ha & Hb)|[-> ->]].
      * exists x', y'. split; [|done]. apply elem_of_app. by left.
      * exists x, y. split; [|split; [by exists s|done]].
        apply elem_of_app. right. by apply list_elem_of_singleton.
  - eapply reg_inv_ext; [|exact Hinv]. intros a b. unfold edge_in. split.
    + intros (x' & y' & Hin & Hm & Ha & Hb).
      exists x', y'. split; [|done]. apply elem_of_app. by left.
    + intros (x' & y' & [Hin|[= -> ->]%list_elem_of_singleton]%elem_of_app
        & Hm & Ha & Hb); [by exists x', y'|].
      destruct Hm as (s' & Hs' & Hge'). congruence.
Qed.

Lemma scan_inv threshold pairs done st st' :
  reg_inv (edge_in threshold done) st →
  scan threshold pairs st = Ok st' →
  reg_inv (edge_in threshold (done ++ pairs)) st'.
Proof.
  revert done st. induction pairs as [|[x y] pairs IH]; intros done st Hinv; simpl.
  - intros [= <-]. by rewrite app_nil_r.
  - destruct (process_pair threshold x y st) as [st1|e] eqn:Hstep; simpl; [|done].
    intros Hrest. rewrite (assoc_L (++) done [(x, y)] pairs : done ++ (x, y) :: pairs = _).
    eapply IH; [|exact Hrest]. by eapply process_pair_inv.
Qed.

Lemma scan_init_inv threshold pairs st :
  scan threshold pairs ([], 0) = Ok st → reg_inv (edge_in threshold pairs) st.
Proof.
  intros Hscan. apply (scan_inv threshold pairs [] ([], 0) st); [|done].
  eapply reg_inv_ext; [|exact reg_inv_init]. intros a b. split; [done|].
  by intros (x & y & ?%elem_of_nil & _).
Qed.
End Scan.

(** ** What the invariant says about a registry *)

Section InvariantConsequences.
Implicit Types (E : relation string) (st : state) (k : nat) (c : cluster).

(** A cluster is closed under the edges: it is a whole component. *)
Lemma reg_inv_closed E st k c a b :
  reg_inv E st → (k, c) ∈ st.1 → a ∈ c → rtsc E a b → b ∈ c.
Proof.
  intros Hinv Hin Ha Hpath. revert Ha.
  induction Hpath as [a|a a' b Hstep _ IH]; [done|].
  intros Ha. apply IH.
  assert (∃ k' c', (k', c') ∈ st.1 ∧ a ∈ c' ∧ a' ∈ c') as (k' & c' & Hin' & Ha' & Ha'').
  { destruct Hstep as [Hab|Hba].
    - by apply (inv_complete _ _ Hinv).
    - destruct (inv_complete _ _ Hinv _ _ Hba) as (k' & c' & ? & ? & ?). eauto. }
  destruct (reg_inv_same_entry _ _ _ _ _ _ _ Hinv Hin Hin' Ha Ha') as [_ ->]. done.
Qed.

(** Whoever is an end of an edge is in a cluster. *)
Lemma reg_inv_touched_in E st a b :
  reg_inv E st → sc E a b → ∃ k c, (k, c) ∈ st.1 ∧ a ∈ c ∧ b ∈ c.
Proof.
  intros Hinv [Hab|Hba].
  - by apply (inv_complete _ _ Hinv).
  - destruct (inv_complete _ _ Hinv _ _ Hba) as (k & c & ? & ? & ?). eauto.
Qed.

Lemma reg_inv_pairwise_disjoint E st : reg_inv E st → pairwise_disjoint st.1.
Proof.
  intros Hinv i j k1 c1 k2 c2 Hi Hj Hij.
  assert (k1 ≠ k2) as Hk.
  { intros <-. apply Hij.
    eapply (NoDup_lookup _ i j k1 (inv_keys _ _ Hinv));
      rewrite list_lookup_fmap; [by rewrite Hi|by rewrite Hj]. }
  split; [done|].
  eapply (inv_disjoint _ _ Hinv); [..|exact Hk]; apply list_elem_of_lookup; eauto.
Qed.

Lemma reg_inv_in_exactly_one E st a b :
  reg_inv E st → sc E a b → in_exactly_one st.1 a.
Proof.
  intros Hinv Hab.
  destruct (reg_inv_touched_in _ _ _ _ Hinv Hab) as (k & c & Hin & Ha & _).
  apply list_elem_of_lookup in Hin as [i Hi].
  exists i, k, c. repeat split; [done..|].
  intros i' k' c' Hi' Ha'. destruct (decide (i' = i)) as [|Hne]; [done|].
  destruct (reg_inv_pairwise_disjoint _ _ Hinv _ _ _ _ _ _ Hi' Hi Hne) as [_ Hdisj].
  set_solver.
Qed.

Lemma two_members (c : cluster) (a b : string) :
  a ≠ b → a ∈ c → b ∈ c → 2 ≤ size c.
Proof.
  intros Hne Ha Hb. assert ({[a; b]} ⊆ c) as Hsub%subseteq_size by set_solver.
  rewrite size_union, !size_singleton in Hsub by set_solver. done.
Qed.

(** When no edge is a loop, every cluster has two members or more. *)
Lemma reg_inv_size E st k c :
  reg_inv E st → (∀ a, ¬ E a a) → (k, c) ∈ st.1 → 2 ≤ size c.
Proof.
  intros Hinv Hirr Hin.
  destruct (set_choose_L c (inv_nonempty _ _ Hinv _ _ Hin)) as [a Ha].
  destruct (inv_touched _ _ Hinv _ _ _ Hin Ha) as [b Hb].
  apply (two_members c a b); [|done|].
  - intros <-. destruct Hb as [Hb|Hb]; by apply (Hirr a).
  - eapply reg_inv_closed; eauto. by apply rtc_once.
Qed.
End InvariantConsequences.

(** ** The clusters are the connected components *)

Section Components.
Context `{Sim : Similarity}.
Implicit Types (threshold : score) (items : list item) (st : state).
Implicit Types (clusters : registry) (k : nat) (c : cluster).

Lemma reachable_inv items threshold done st :
  reachable items threshold done st → reg_inv (edge_in threshold done) st.
Proof. intros (todo & _ & Hscan). by apply scan_init_inv. Qed.

Lemma compare_embeddings_reachable items threshold clusters :
  compare_embeddings items threshold = Ok clusters →
  ∃ n, reachable items threshold (all_pairs items) (clusters, n).
Proof.
  intros [n Hscan]%compare_embeddings_scan. exists n, [].
  by rewrite app_nil_r.
Qed.

Lemma compare_embeddings_inv items threshold clusters :
  compare_embeddings items threshold = Ok clusters →
  ∃ n, reg_inv (similar items threshold) (clusters, n).
Proof.
  intros [n Hreach]%compare_embeddings_reachable. exists n.
  eapply reg_inv_ext; [|by eapply reachable_inv].
  intros a b. apply edge_in_all_pairs.
Qed.

(** Different files never form an edge with themselves. *)
Lemma similar_irrefl items threshold a :
  NoDup items.*1 → ¬ similar items threshold a a.
Proof.
  intros Hnd (i & j & u & v & Hij & Hi & Hj & _).
  assert (i = j); [|lia].
  eapply (NoDup_lookup _ i j a Hnd); rewrite list_lookup_fmap;
    [by rewrite Hi|by rewrite Hj].
Qed.

Lemma edge_in_prefix_similar items threshold done todo a b :
  all_pairs items = done ++ todo →
  edge_in threshold done a b → similar items threshold a b.
Proof.
  intros Hsplit (x & y & Hin & Hrest). apply edge_in_all_pairs.
  exists x, y. split; [|done]. rewrite Hsplit. apply elem_of_app. by left.
Qed.

(** C1.  When the scan completes, its clusters are exactly the connected
    components with two or more members of the graph on file names whose
    edges are the pairs scoring at least the threshold.  Every cluster has
    at least two members and is the whole component of each of its
    members; any two different connected files share a cluster; different
    entries are disjoint; and a file similar to a second one that is
    similar to a third lies with both in one cluster, the only cluster any
    of the three is in. *)
Theorem compare_embeddings_connected_components items threshold clusters :
  NoDup items.*1 →
  compare_embeddings items threshold = Ok clusters →
  (∀ k c, (k, c) ∈ clusters →
     2 ≤ size c ∧ ∀ a, a ∈ c → ∀ b, b ∈ c ↔ connected items threshold a b) ∧
  (∀ a b, a ≠ b → connected items threshold a b →
     ∃ k c, (k, c) ∈ clusters ∧ a ∈ c ∧ b ∈ c) ∧
  pairwise_disjoint clusters ∧
  (∀ a b d,
     sc (similar items threshold) a b → sc (similar items threshold) b d →
     ∃ k c, (k, c) ∈ clusters ∧ a ∈ c ∧ b ∈ c ∧ d ∈ c ∧
       ∀ k' c', (k', c') ∈ clusters → a ∈ c' ∨ b ∈ c' ∨ d ∈ c' →
                k' = k ∧ c' = c).
Proof.
  intros Hnd [n Hinv]%compare_embeddings_inv. unfold connected.
  split; [|split; [|split]].
  - intros k c Hin. split.
    + eapply reg_inv_size; [exact Hinv| |exact Hin].
      intros a. by apply similar_irrefl.
    + intros a Ha b. split.
      * intros Hb. exact (inv_sound _ _ Hinv _ _ _ _ Hin Ha Hb).
      * intros Hpath. exact (reg_inv_closed _ _ _ _ _ _ Hinv Hin Ha Hpath).
  - intros a b Hne Hpath.
    destruct (rtc_inv _ _ Hpath) as [->|(a' & Hstep & _)]; [done|].
    destruct (reg_inv_touched_in _ _ _ _ Hinv Hstep) as (k & c & Hin & Ha & _).
    exists k, c. split; [done|]. split; [done|].
    exact (reg_inv_closed _ _ _ _ _ _ Hinv Hin Ha Hpath).
  - exact (reg_inv_pairwise_disjoint _ _ Hinv).
  - intros a b d Hab Hbd.
    destruct (reg_inv_touched_in _ _ _ _ Hinv Hab) as (k & c & Hin & Ha & Hb).
    assert (Hd : d ∈ c).
    { eapply reg_inv_closed; [exact Hinv|exact Hin|exact Hb|]. by apply rtc_once. }
    exists k, c. do 4 (split; [done|]).
    intros k' c' Hin' [Hm|[Hm|Hm]].
    + exact (reg_inv_same_entry _ _ _ _ _ _ _ Hinv Hin' Hin Hm Ha).
    + exact (reg_inv_same_entry _ _ _ _ _ _ _ Hinv Hin' Hin Hm Hb).
    + exact (reg_inv_same_entry _ _ _ _ _ _ _ Hinv Hin' Hin Hm Hd).
Qed.
End Components.

(** ** Disjointness and cluster size along the scan *)

Section Along.
Context `{Sim : Similarity}.
Implicit Types (threshold : score) (items : list item) (st : state).

(** C2.  The two loops are one pass over the pairs in loop order; after every
    processed pair of that pass, and in the registry the scan ends with,
    two different entries of the registry have different ids and disjoint
    member sets, and every file that has matched another file so far is a
    member of exactly one entry. *)
Theorem clusters_disjoint_throughout items threshold :
  outer_loop threshold items ([], 0)
  = scan threshold (all_pairs items) ([], 0) ∧
  (∀ done st, reachable items threshold done st →
     pairwise_disjoint st.1 ∧
     ∀ a b, sc (edge_in threshold done) a b → in_exactly_one st.1 a) ∧
  (∀ clusters, compare_embeddings items threshold = Ok clusters →
     pairwise_disjoint clusters ∧
     ∀ a b, sc (similar items threshold) a b → in_exactly_one clusters a).
Proof.
  split; [apply outer_loop_scan|]. split.
  - intros done st Hinv%reachable_inv. split.
    + by eapply reg_inv_pairwise_disjoint.
    + intros a b Hab. by eapply reg_inv_in_exactly_one.
  - intros clusters [n Hinv]%compare_embeddings_inv. split.
    + exact (reg_inv_pairwise_disjoint _ _ Hinv).
    + intros a b Hab. exact (reg_inv_in_exactly_one _ _ _ _ Hinv Hab).
Qed.

(** Adding or merging never shrinks a cluster that is already there. *)
Lemma register_match_grows E file_i file_j st k c :
  reg_inv E st → (k, c) ∈ st.1 →
  ∃ k' c', (k', c') ∈ (register_match file_i file_j st).1 ∧ c ⊆ c'.
Proof.
  destruct st as [reg n]. intros Hinv Hin.
  pose proof (inv_keys _ _ Hinv) as Hnd. simpl in *. unfold register_match.
  destruct (find_cluster file_i reg) as [ki|] eqn:Hi;
    destruct (find_cluster file_j reg) as [kj|] eqn:Hj; simpl.
  - case_decide as Hne; [|by exists k, c].
    destruct (find_cluster_Some _ _ _ Hi) as (ci & Hci & _).
    destruct (find_cluster_Some _ _ _ Hj) as (cj & Hcj & _).
    rewrite (elem_of_dict_get _ _ _ Hnd Hcj). simpl.
    destruct (decide (k = kj)) as [->|Hk].
    + exists ki, (ci ∪ cj). split.
      * apply elem_of_dict_del. split; [|done].
        apply elem_of_dict_alter. exists ci. by rewrite decide_True.
      * rewrite (unique_value _ _ _ _ Hnd Hin Hcj). set_solver.
    + exists k, (if decide (k = ki) then c ∪ cj else c). split.
      * apply elem_of_dict_del. split; [|done]. apply elem_of_dict_alter. eauto.
      * case_decide; set_solver.
  - exists k, (if decide (k = ki) then c ∪ {[file_j]} else c). split.
    + apply elem_of_dict_alter. eauto.
    + case_decide; set_solver.
  - exists k, (if decide (k = kj) then c ∪ {[file_i]} else c). split.
    + apply elem_of_dict_alter. eauto.
    + case_decide; set_solver.
  - exists k, c. split; [|done]. rewrite dict_set_fresh.
    + apply elem_of_app. by left.
    + intros (kv & Hkv & Hkv')%list_elem_of_fmap. destruct kv as [k' c']. simpl in *.
      subst k'. pose proof (inv_fresh _ _ Hinv _ _ Hkv'). simpl in *. lia.
Qed.

Lemma process_pair_grows E threshold x y st st' k c :
  reg_inv E st → process_pair threshold x y st = Ok st' → (k, c) ∈ st.1 →
  ∃ k' c', (k', c') ∈ st'.1 ∧ c ⊆ c'.
Proof.
  intros Hinv Hstep Hin. unfold process_pair in Hstep.
  destruct (cosine_similarity x.2 y.2) as [s|e]; simpl in Hstep; [|done].
  destruct (score_ge s threshold); injection Hstep as <-.
  - by eapply register_match_grows.
  - by exists k, c.
Qed.

(** C10.  For an input whose file names are distinct, every cluster in the
    registry after any number of processed pairs, and every cluster of the
    final registry, has at least two members.  A cluster is created from
    the two files of a matching pair, and processing a pair leaves every
    existing cluster inside a cluster of the next registry. *)
Theorem clusters_have_two_members items threshold :
  NoDup items.*1 →
  (∀ done st, reachable items threshold done st →
     (∀ k c, (k, c) ∈ st.1 → 2 ≤ size c) ∧
     (∀ x y st', process_pair threshold x y st = Ok st' →
        ∀ k c, (k, c) ∈ st.1 → ∃ k' c', (k', c') ∈ st'.1 ∧ c ⊆ c')) ∧
  (∀ clusters, compare_embeddings items threshold = Ok clusters →
     ∀ k c, (k, c) ∈ clusters → 2 ≤ size c) ∧
  (∀ file_i file_j clusters n,
     file_i ≠ file_j →
     find_cluster file_i clusters = None →
     find_cluster file_j clusters = None →
     register_match file_i file_j (clusters, n)
       = (dict_set n {[file_i; file_j]} clusters, S n) ∧
     size ({[file_i; file_j]} : cluster) = 2).
Proof.
  intros Hnd. split; [|split].
  - intros done st Hreach. pose proof (reachable_inv _ _ _ _ Hreach) as Hinv.
    destruct Hreach as (todo & Hsplit & _). split.
    + intros k c Hin. eapply reg_inv_size; [exact Hinv| |exact Hin].
      intros a Haa. eapply similar_irrefl; [exact Hnd|].
      by eapply edge_in_prefix_similar.
    + intros x y st' Hstep k c Hin. by eapply process_pair_grows.
  - intros clusters [n Hinv]%compare_embeddings_inv k c Hin.
    eapply reg_inv_size; [exact Hinv| |exact Hin].
    intros a. by apply similar_irrefl.
  - intros file_i file_j clusters n Hne Hi Hj. unfold register_match.
    rewrite Hi, Hj. split; [done|].
    rewrite size_union, !size_singleton by set_solver. done.
Qed.
End Along.

(** ** Raising the threshold *)

Section Threshold.
Context `{Sim : Similarity}.
Implicit Types (threshold : score) (items : list item) (st : state).

Lemma covered_cons k (c : cluster) (rest : registry) :
  covered ((k, c) :: rest) = c ∪ covered rest.
Proof. reflexivity. Qed.

Lemma covered_count_cons k (c : cluster) (rest : registry) :
  covered_count ((k, c) :: rest) = size c + covered_count rest.
Proof. reflexivity. Qed.

Lemma covered_count_size E st :
  reg_inv E st → covered_count st.1 = size (covered st.1).
Proof.
  intros Hinv. pose proof (inv_keys _ _ Hinv) as Hnd.
  pose proof (inv_disjoint _ _ Hinv) as Hd. clear Hinv.
  destruct st as [reg n]. simpl in *.
  induction reg as [|[k c] rest IH].
  - change (0 = size (∅ : cluster)). symmetry. apply size_empty.
  - rewrite fmap_cons in Hnd. apply NoDup_cons in Hnd as [Hk Hnd].
    rewrite covered_cons, covered_count_cons, size_union.
    + f_equal. apply IH; [done|]. intros k1 c1 k2 c2 H1 H2.
      apply Hd; by right.
    + intros a Ha (c' & (kv & -> & Hkv)%list_elem_of_fmap & Ha')%elem_of_union_list.
      destruct kv as [k' c']. simpl in *.
      assert (k ≠ k') as Hne.
      { intros <-. apply Hk. by eapply elem_of_keys. }
      assert (c ## c') as Hdisj by (apply (Hd k c k' c'); [by left|by right|done]).
      by apply (Hdisj a).
Qed.

Lemma elem_of_covered (clusters : registry) a :
  a ∈ covered clusters ↔ ∃ k c, (k, c) ∈ clusters ∧ a ∈ c.
Proof.
  unfold covered. rewrite elem_of_union_list. split.
  - intros (c & (kv & -> & Hkv)%list_elem_of_fmap & Ha).
    destruct kv as [k c]. by exists k, c.
  - intros (k & c & Hin & Ha). exists c. split; [|done].
    apply list_elem_of_fmap. by exists (k, c).
Qed.

(** C6.  For one input and two thresholds [t1 <= t2] at which the scan
    completes, every cluster found at [t2] is contained in a cluster found
    at [t1], so it is no larger, and the files covered by clusters at [t2]
    are among those covered at [t1], so they are no more. *)
Theorem threshold_antitone items t1 t2 clusters1 clusters2 :
  (∀ a b c,
     score_ge a b = true → score_ge b c = true → score_ge a c = true) →
  score_ge t2 t1 = true →
  compare_embeddings items t1 = Ok clusters1 →
  compare_embeddings items t2 = Ok clusters2 →
  (∀ k2 c2, (k2, c2) ∈ clusters2 →
     ∃ k1 c1, (k1, c1) ∈ clusters1 ∧ c2 ⊆ c1 ∧ size c2 ≤ size c1) ∧
  covered clusters2 ⊆ covered clusters1 ∧
  covered_count clusters2 ≤ covered_count clusters1.
Proof.
  intros Htrans Hle [n1 Hinv1]%compare_embeddings_inv
    [n2 Hinv2]%compare_embeddings_inv.
  assert (Hsub : ∀ a b, similar items t2 a b → similar items t1 a b).
  { intros a b (i & j & u & v & Hij & Hi & Hj & s & Hs & Hge).
    exists i, j, u, v. repeat split; try done. exists s. split; [done|].
    by eapply Htrans. }
  assert (Hcl : ∀ k2 c2, (k2, c2) ∈ clusters2 →
    ∃ k1 c1, (k1, c1) ∈ clusters1 ∧ c2 ⊆ c1).
  { intros k2 c2 Hin2.
    destruct (set_choose_L c2 (inv_nonempty _ _ Hinv2 _ _ Hin2)) as [a Ha].
    destruct (inv_touched _ _ Hinv2 _ _ _ Hin2 Ha) as [b Hb].
    destruct (reg_inv_touched_in _ _ a b Hinv1 (sc_mono _ _ _ _ Hsub Hb))
      as (k1 & c1 & Hin1 & Ha1 & _).
    exists k1, c1. split; [done|]. intros d Hd.
    eapply reg_inv_closed; [exact Hinv1|exact Hin1|exact Ha1|].
    eapply rtsc_mono; [exact Hsub|].
    exact (inv_sound _ _ Hinv2 _ _ _ _ Hin2 Ha Hd). }
  assert (Hcov : covered clusters2 ⊆ covered clusters1).
  { intros a (k2 & c2 & Hin2 & Ha)%elem_of_covered.
    destruct (Hcl _ _ Hin2) as (k1 & c1 & Hin1 & Hsub12).
    apply elem_of_covered. exists k1, c1. split; [done|]. by apply Hsub12. }
  split; [|split; [done|]].
  - intros k2 c2 Hin2. destruct (Hcl _ _ Hin2) as (k1 & c1 & Hin1 & Hsub12).
    exists k1, c1. split; [done|]. split; [done|]. by apply subseteq_size.
  - rewrite (covered_count_size _ _ Hinv1 : covered_count clusters1 = _).
    rewrite (covered_count_size _ _ Hinv2 : covered_count clusters2 = _).
    by apply subseteq_size.
Qed.
End Threshold.

(** ** A matching pair whose files both own a cluster *)

Section Merge.
Context `{Sim : Similarity}.
Implicit Types (threshold : score) (items : list item) (st : state).

Lemma dict_del_keys k0 (clusters : registry) :
  (dict_del k0 clusters).*1 = filter (λ k, k ≠ k0) clusters.*1.
Proof.
  unfold dict_del. induction clusters as [|[k c] rest IH]; [done|].
  rewrite fmap_cons, !filter_cons. simpl.
  destruct (decide (k ≠ k0)); [rewrite fmap_cons; simpl|]; by rewrite IH.
Qed.

(** C9.  When a pair scoring at least the threshold is processed and file i is
    found in cluster [ki] and file j in cluster [kj], then either [ki ≠
    kj] and afterwards [ki] holds the union of the two clusters, [kj] is
    gone from the registry, every other id keeps its cluster and its
    place, and the counter is unchanged; or [ki = kj] and the state is
    left as it was. *)
Theorem merge_keeps_id_of_first threshold x y clusters n s ki kj ci cj :
  cosine_similarity x.2 y.2 = Ok s →
  score_ge s threshold = true →
  find_cluster x.1 clusters = Some ki →
  find_cluster y.1 clusters = Some kj →
  dict_get ki clusters = Some ci →
  dict_get kj clusters = Some cj →
  (ki ≠ kj →
     ∃ clusters',
       process_pair threshold x y (clusters, n) = Ok (clusters', n) ∧
       dict_get ki clusters' = Some (ci ∪ cj) ∧
       dict_get kj clusters' = None ∧
       (∀ k, k ≠ ki → k ≠ kj → dict_get k clusters' = dict_get k clusters) ∧
       clusters'.*1 = filter (λ k, k ≠ kj) clusters.*1) ∧
  (ki = kj → process_pair threshold x y (clusters, n) = Ok (clusters, n)).
Proof.
  intros Hcos Hge Hi Hj Hci Hcj. unfold process_pair. rewrite Hcos. simpl.
  rewrite Hge. unfold register_match. rewrite Hi, Hj. split.
  - intros Hne. rewrite decide_True by done. rewrite Hcj. simpl.
    eexists. split; [reflexivity|]. split; [|split; [|split]].
    + rewrite dict_get_del, decide_False by done.
      rewrite dict_get_alter, decide_True by done. by rewrite Hci.
    + rewrite dict_get_del. by rewrite decide_True.
    + intros k Hki Hkj. rewrite dict_get_del, decide_False by done.
      rewrite dict_get_alter. by rewrite decide_False.
    + by rewrite dict_del_keys, dict_alter_keys.
  - intros ->. rewrite decide_False; [done|]. by intros ?.
Qed.

(** C7.  On an empty input and on an input of one item the scan ends with an
    empty registry, and the report has no line. *)
Theorem no_pair_no_cluster threshold (x : item) (order : set_order) :
  compare_embeddings [] threshold = Ok [] ∧
  compare_embeddings [x] threshold = Ok [] ∧
  print_clusters order [] threshold = Ok [] ∧
  print_clusters order [x] threshold = Ok [].
Proof. repeat split. Qed.
End Merge.

(** ** Inputs where every pair, or no pair, passes the test *)

Section Extremes.
Context `{Sim : Similarity}.
Implicit Types (threshold : score) (items : list item) (st : state).
Implicit Types (pairs : list (item * item)).

Lemma all_pairs_members items x y :
  (x, y) ∈ all_pairs items → x ∈ items ∧ y ∈ items.
Proof.
  intros (i & j & _ & Hi & Hj)%elem_of_all_pairs.
  split; apply list_elem_of_lookup; eauto.
Qed.

Lemma bind_Ok {A B} (a : A) (f : A → result B) : (Ok a ≫= f) = f a.
Proof. reflexivity. Qed.

Lemma scan_cons threshold x y pairs st :
  scan threshold ((x, y) :: pairs) st
  = (st' ← process_pair threshold x y st; scan threshold pairs st').
Proof. reflexivity. Qed.

Lemma process_pair_match threshold x y st :
  matches threshold x y →
  process_pair threshold x y st = Ok (register_match x.1 y.1 st).
Proof.
  intros (s & Hs & Hge). unfold process_pair. rewrite Hs. simpl. by rewrite Hge.
Qed.

Lemma scan_no_match threshold pairs st :
  (∀ x y, (x, y) ∈ pairs →
     ∃ s, cosine_similarity x.2 y.2 = Ok s ∧ score_ge s threshold = false) →
  scan threshold pairs st = Ok st.
Proof.
  induction pairs as [|[x y] pairs IH]; intros Hno; simpl; [done|].
  destruct (Hno x y) as (s & Hs & Hge); [by left|].
  unfold process_pair. rewrite Hs. simpl. rewrite Hge.
  apply IH. intros x' y' Hin. apply Hno. by right.
Qed.

Lemma scan_none_pass threshold pairs st st' :
  (∀ x y s, (x, y) ∈ pairs →
     cosine_similarity x.2 y.2 = Ok s → score_ge s threshold = false) →
  scan threshold pairs st = Ok st' → st' = st.
Proof.
  induction pairs as [|[x y] pairs IH]; intros Hno.
  - by intros [= <-].
  - rewrite scan_cons. unfold process_pair.
    destruct (cosine_similarity x.2 y.2) as [s|e] eqn:Hs; [|done].
    rewrite bind_Ok, (Hno x y s), bind_Ok by (done || by left).
    apply IH. intros x' y' s' Hin. apply Hno. by right.
Qed.

Lemma scan_total threshold pairs st :
  (∀ x y, (x, y) ∈ pairs → ∃ s, cosine_similarity x.2 y.2 = Ok s) →
  ∃ st', scan threshold pairs st = Ok st'.
Proof.
  revert st. induction pairs as [|[x y] pairs IH]; intros st Hall.
  - by exists st.
  - destruct (Hall x y) as [s Hs]; [by left|]. rewrite scan_cons.
    unfold process_pair. rewrite Hs, bind_Ok.
    destruct (score_ge s threshold); rewrite bind_Ok;
      apply IH; intros x' y' Hin; apply Hall; by right.
Qed.

Lemma scan_raises threshold pairs st x y e :
  (x, y) ∈ pairs → cosine_similarity x.2 y.2 = Raise e →
  ∃ e', scan threshold pairs st = Raise e'.
Proof.
  revert st. induction pairs as [|[x' y'] pairs IH]; intros st Hin Hbad.
  - by apply elem_of_nil in Hin.
  - simpl. destruct (process_pair threshold x' y' st) as [st1|e1] eqn:Hstep;
      simpl; [|by exists e1].
    apply elem_of_cons in Hin as [[= <- <-]|Hin]; [|by apply IH].
    unfold process_pair in Hstep. by rewrite Hbad in Hstep.
Qed.

Lemma compare_embeddings_raises items threshold i j x y e :
  i < j → items !! i = Some x → items !! j = Some y →
  cosine_similarity x.2 y.2 = Raise e →
  ∃ e', compare_embeddings items threshold = Raise e'.
Proof.
  intros Hij Hi Hj Hbad. unfold compare_embeddings. rewrite outer_loop_scan.
  destruct (scan_raises threshold (all_pairs items) ([], 0) x y e) as [e' ->];
    [|done|by exists e'].
  apply elem_of_all_pairs. eauto.
Qed.

Lemma snd_map_pair (x : item) (later : list item) :
  (map (pair x) later).*2 = later.
Proof.
  induction later as [|y later IH]; [done|].
  change (y :: (map (pair x) later).*2 = y :: later). by rewrite IH.
Qed.

Lemma all_pairs_second_names items a :
  a ∈ (all_pairs items).*2.*1 → a ∈ items.*1.
Proof.
  intros (y & -> & ([x y'] & -> & Hin)%list_elem_of_fmap)%list_elem_of_fmap.
  apply all_pairs_members in Hin as [_ Hy]. simpl.
  apply list_elem_of_fmap. by exists y'.
Qed.

(** With one cluster that holds file i, a matching pair adds file j to it. *)
Lemma register_match_single file_i file_j (c : cluster) n :
  file_i ∈ c →
  register_match file_i file_j ([(0, c)], n) = ([(0, c ∪ {[file_j]})], n).
Proof.
  intros Hi. unfold register_match. simpl.
  rewrite bool_decide_eq_true_2 by done.
  case_bool_decide as Hj; simpl.
  - assert (c ∪ {[file_j]} = c) as -> by set_solver. done.
  - done.
Qed.

Lemma scan_single threshold pairs (c : cluster) n :
  (∀ x y, (x, y) ∈ pairs → matches threshold x y ∧ x.1 ∈ c) →
  scan threshold pairs ([(0, c)], n)
  = Ok ([(0, c ∪ list_to_set pairs.*2.*1)], n).
Proof.
  revert c. induction pairs as [|[x y] pairs IH]; intros c Hall.
  - change (Ok ([(0, c)], n) = Ok ([(0, c ∪ ∅)], n)).
    by rewrite (right_id_L ∅ (∪)).
  - destruct (Hall x y) as [Hm Hx]; [by left|].
    rewrite !fmap_cons, list_to_set_cons, scan_cons, process_pair_match by done.
    rewrite bind_Ok, register_match_single by done. rewrite IH.
    + by rewrite (assoc_L (∪)).
    + intros x' y' Hin. destruct (Hall x' y') as [Hm' Hx']; [by right|].
      split; [done|]. set_solver.
Qed.

Lemma compare_embeddings_all_pairs_match items threshold :
  2 ≤ length items →
  (∀ x y, (x, y) ∈ all_pairs items → matches threshold x y) →
  compare_embeddings items threshold = Ok [(0, list_to_set items.*1)].
Proof.
  intros Hlen Hall. destruct items as [|x0 [|x1 rest]]; simpl in Hlen; [lia..|].
  apply compare_embeddings_scan. exists 1. revert Hall.
  change (all_pairs (x0 :: x1 :: rest))
    with (((x0, x1) :: map (pair x0) rest) ++ all_pairs (x1 :: rest)).
  intros Hall.
  rewrite scan_app, scan_cons, process_pair_match
    by (apply Hall, elem_of_app; left; by left).
  change (register_match x0.1 x1.1 ([], 0))
    with ([(0, ({[x0.1; x1.1]} : cluster))], 1).
  rewrite bind_Ok.
  rewrite (scan_single threshold (map (pair x0) rest) {[x0.1; x1.1]} 1).
  - rewrite bind_Ok, (scan_single threshold _ _ 1).
    + do 4 f_equal. apply set_eq. intros a.
      rewrite !elem_of_union, !elem_of_list_to_set, snd_map_pair.
      rewrite !fmap_cons, !elem_of_cons, !elem_of_singleton. split.
      * intros [[[?|?]|?]|Hlater%all_pairs_second_names]; [tauto..|].
        rewrite fmap_cons, elem_of_cons in Hlater. tauto.
      * tauto.
    + intros x y Hin. split.
      * apply Hall, elem_of_app. by right.
      * apply all_pairs_members in Hin as [Hx _]. rewrite snd_map_pair.
        apply elem_of_cons in Hx as [->|Hx]; [set_solver|].
        apply elem_of_union. right. apply elem_of_list_to_set.
        apply list_elem_of_fmap. by exists x.
  - intros x y Hin. split; [|apply list_elem_of_fmap in Hin
                              as (y' & [= -> ->] & Hy); set_solver].
    apply Hall, elem_of_app. left. by right.
Qed.

(** C8.  The threshold is not validated: a scan on which every pair can be
    scored completes whatever the threshold is.  When no score computed for
    a pair of the input, taken in loop order, is at least the threshold,
    no registry the scan returns has a cluster.  When every such score is
    at least the threshold and the input has two or more items, the scan
    returns the single cluster 0 holding every file name. *)
Theorem threshold_beyond_scores items threshold :
  ((∀ i j x y, i < j → items !! i = Some x → items !! j = Some y →
      ∃ s, cosine_similarity x.2 y.2 = Ok s) →
   ∃ clusters, compare_embeddings items threshold = Ok clusters) ∧
  ((∀ i j x y s, i < j → items !! i = Some x → items !! j = Some y →
      cosine_similarity x.2 y.2 = Ok s → score_ge s threshold = false) →
   ∀ clusters, compare_embeddings items threshold = Ok clusters →
               clusters = []) ∧
  ((∀ i j x y, i < j → items !! i = Some x → items !! j = Some y →
      ∃ s, cosine_similarity x.2 y.2 = Ok s ∧ score_ge s threshold = true) →
   2 ≤ length items →
   compare_embeddings items threshold = Ok [(0, list_to_set items.*1)]).
Proof.
  split; [|split].
  - intros Hall.
    destruct (scan_total threshold (all_pairs items) ([], 0))
      as [[clusters n] Hscan].
    + intros x y (i & j & Hij & Hi & Hj)%elem_of_all_pairs. by eapply Hall.
    + exists clusters. apply compare_embeddings_scan. by exists n.
  - intros Hnone clusters [n Hscan]%compare_embeddings_scan.
    apply scan_none_pass in Hscan; [congruence|].
    intros x y s (i & j & Hij & Hi & Hj)%elem_of_all_pairs. by eapply Hnone.
  - intros Hall Hlen. apply compare_embeddings_all_pairs_match; [done|].
    intros x y (i & j & Hij & Hi & Hj)%elem_of_all_pairs. by eapply Hall.
Qed.
End Extremes.

(** ** scikit-learn's cosine similarity *)

Section SklearnFacts.
Implicit Types (x y u v : list R).

Lemma dot_nil_l y : dot [] y = 0%R.
Proof. reflexivity. Qed.

Lemma dot_nil_r x : dot x [] = 0%R.
Proof. by destruct x. Qed.

Lemma dot_cons a x b y : dot (a :: x) (b :: y) = (a * b + dot x y)%R.
Proof. reflexivity. Qed.

Lemma dot_self_nonneg x : (0 <= dot x x)%R.
Proof.
  induction x as [|a x IH]; [rewrite dot_nil_l; lra|].
  rewrite dot_cons. nra.
Qed.

Lemma finfo_eps_small : (0 < 10 * finfo_eps < 1)%R.
Proof. unfold finfo_eps. lra. Qed.

(** The norm a row is divided by is never zero. *)
Lemma handle_zeros_in_scale_pos x : (0 < handle_zeros_in_scale (row_norm x))%R.
Proof.
  pose proof finfo_eps_small. unfold handle_zeros_in_scale.
  destruct (Rlt_dec _ _) as [Hsmall|Hbig]; lra.
Qed.

Lemma handle_zeros_in_scale_zero x :
  row_norm x = 0%R → handle_zeros_in_scale (row_norm x) = 1%R.
Proof.
  intros ->. pose proof finfo_eps_small. unfold handle_zeros_in_scale.
  destruct (Rlt_dec _ _); [done|lra].
Qed.

Lemma check_array_true x : x ≠ [] → check_array x = true.
Proof. by destruct x. Qed.

Lemma real_ge_true s t : real_ge s t = true ↔ (s >= t)%R.
Proof. unfold real_ge. destruct (Rge_dec s t); split; done. Qed.

Lemma real_ge_false s t : real_ge s t = false ↔ (s < t)%R.
Proof. unfold real_ge. destruct (Rge_dec s t); split; (done || lra). Qed.

Lemma dot_self_zero x : dot x x = 0%R → Forall (λ a, a = 0%R) x.
Proof.
  induction x as [|a x IH]; [constructor|]. rewrite dot_cons. intros Hz.
  pose proof (dot_self_nonneg x). pose proof (Rle_0_sqr a) as Ha. unfold Rsqr in Ha.
  constructor.
  - assert (a * a = 0)%R as Hsq by lra.
    by destruct (Rmult_integral _ _ Hsq).
  - apply IH. lra.
Qed.

Lemma dot_zero_l u v : Forall (λ a, a = 0%R) u → dot u v = 0%R.
Proof.
  intros Hu. revert v. induction Hu as [|a u -> _ IH]; intros [|b v]; try done.
  rewrite dot_cons, IH. lra.
Qed.

Lemma dot_zero_r u v : Forall (λ a, a = 0%R) v → dot u v = 0%R.
Proof.
  intros Hv. revert u. induction Hv as [|b v -> _ IH]; intros [|a u]; try done.
  rewrite dot_cons, IH. lra.
Qed.

Lemma normalize_zero x : row_norm x = 0%R → Forall (λ a, a = 0%R) (normalize x).
Proof.
  intros Hz. unfold row_norm in Hz.
  apply sqrt_eq_0 in Hz; [|apply dot_self_nonneg].
  apply dot_self_zero in Hz. unfold normalize.
  pose proof (handle_zeros_in_scale_pos x) as Hpos.
  apply Forall_fmap. eapply Forall_impl; [exact Hz|]. simpl.
  intros a ->. field. lra.
Qed.

(** A zero row scores 0 against every row of its length. *)
Lemma sklearn_cosine_zero x y :
  row_norm x = 0%R → x ≠ [] → length x = length y →
  sklearn_cosine_similarity x y = Ok 0%R ∧
  sklearn_cosine_similarity y x = Ok 0%R.
Proof.
  intros Hz%normalize_zero Hx Hlen. unfold sklearn_cosine_similarity.
  assert (y ≠ []) as Hy by (by destruct x, y).
  rewrite !check_array_true, !decide_True by done. simpl.
  by rewrite dot_zero_l, dot_zero_r.
Qed.

Lemma sklearn_cosine_total x y :
  x ≠ [] → length x = length y → ∃ s, sklearn_cosine_similarity x y = Ok s.
Proof.
  intros Hx Hlen. unfold sklearn_cosine_similarity.
  assert (y ≠ []) as Hy by (by destruct x, y).
  rewrite !check_array_true, decide_True by done. by eexists.
Qed.

Lemma sklearn_cosine_mismatch x y :
  length x ≠ length y → sklearn_cosine_similarity x y = Raise ShapeMismatch.
Proof.
  intros Hlen. unfold sklearn_cosine_similarity.
  destruct (_ && _); [|done]. by rewrite decide_False.
Qed.

(** A row without entries is refused. *)
Lemma sklearn_cosine_empty x y :
  x = [] ∨ y = [] → sklearn_cosine_similarity x y = Raise ShapeMismatch.
Proof.
  unfold sklearn_cosine_similarity. intros [-> | ->]; [done|].
  by rewrite andb_false_r.
Qed.

Implicit Types (items : list (string * list R)) (threshold : R).

Lemma same_dimension_total items threshold :
  same_dimension items → rows_not_empty items →
  ∃ clusters, compare_embeddings (Sim := sklearn) items threshold = Ok clusters.
Proof.
  intros Hdim Hrows.
  destruct (scan_total (Sim := sklearn) threshold
              (all_pairs (Sim := sklearn) items) ([], 0))
    as [[clusters n] Hscan].
  - intros p q [Hp Hq]%all_pairs_members. apply sklearn_cosine_total.
    + by apply Hrows.
    + by apply Hdim.
  - exists clusters. apply compare_embeddings_scan. by exists n.
Qed.

(** C4.  When two rows of the input differ in length, the scan raises the
    dimension error of [cosine_similarity] (the specification's
    ShapeMismatch) whatever the threshold, so it has no registry, and
    nothing is printed. *)
Theorem dimension_mismatch_raises items threshold
    (p q : string * list R) (order : set_order) :
  p ∈ items → q ∈ items → length p.2 ≠ length q.2 →
  compare_embeddings (Sim := sklearn) items threshold = Raise ShapeMismatch ∧
  print_clusters (Sim := sklearn) order items threshold = Raise ShapeMismatch.
Proof.
  intros [i Hi]%list_elem_of_lookup [j Hj]%list_elem_of_lookup Hlen.
  assert (∃ e, compare_embeddings (Sim := sklearn) items threshold = Raise e)
    as [[] Hraise].
  { destruct (Nat.lt_total i j) as [Hij|[->|Hji]].
    - eapply (compare_embeddings_raises (Sim := sklearn)); [exact Hij|done..|].
      by apply sklearn_cosine_mismatch.
    - congruence.
    - eapply (compare_embeddings_raises (Sim := sklearn)); [exact Hji|done..|].
      by apply sklearn_cosine_mismatch. }
  split; [done|]. unfold print_clusters. by rewrite Hraise.
Qed.

(** C3.  A zero-norm row does not make the call fail.  On rows that all have
    an entry and one dimension the scan completes whatever the norms are;
    no row is divided by zero, a zero norm being replaced by 1; the score
    of a zero-norm row against any other row is 0; and for a positive
    threshold and distinct file names the file of a zero-norm row is in no
    cluster of the result. *)
Theorem zero_vector_scores_zero items threshold :
  same_dimension items → rows_not_empty items →
  (∃ clusters,
     compare_embeddings (Sim := sklearn) items threshold = Ok clusters) ∧
  (∀ p : string * list R,
     p ∈ items →
     (0 < handle_zeros_in_scale (row_norm p.2))%R ∧
     (row_norm p.2 = 0%R → handle_zeros_in_scale (row_norm p.2) = 1%R)) ∧
  (∀ p q : string * list R,
     p ∈ items → q ∈ items → row_norm p.2 = 0%R →
     sklearn_cosine_similarity p.2 q.2 = Ok 0%R ∧
     sklearn_cosine_similarity q.2 p.2 = Ok 0%R) ∧
  ((0 < threshold)%R → NoDup items.*1 →
     ∀ (p : string * list R) clusters k c,
       p ∈ items → row_norm p.2 = 0%R →
       compare_embeddings (Sim := sklearn) items threshold = Ok clusters →
       (k, c) ∈ clusters → p.1 ∉ c).
Proof.
  intros Hdim Hrows. split; [by apply same_dimension_total|]. split; [|split].
  - intros p Hp. split; [apply handle_zeros_in_scale_pos|].
    apply handle_zeros_in_scale_zero.
  - intros p q Hp Hq Hz. apply sklearn_cosine_zero; [done|by apply Hrows|].
    by apply Hdim.
  - intros Hthr Hnd [a u] clusters k c Hp Hz
      [n Hinv]%(compare_embeddings_inv (Sim := sklearn)) Hin Ha.
    pose proof (Hrows _ Hp) as Hu. simpl in *.
    assert (Hrow : ∀ i u', items !! i = Some (a, u') → u' = u).
    { intros i u' Hi. eapply NoDup_fst_unique; [exact Hnd| |exact Hp].
      apply list_elem_of_lookup. eauto. }
    destruct (inv_touched _ _ Hinv _ _ _ Hin Ha) as [b [Hab|Hba]].
    + destruct Hab as (i & j & u' & v & _ & Hi & Hj & s & Hs & Hge).
      simpl in *. apply Hrow in Hi as ->.
      destruct (sklearn_cosine_zero u v Hz Hu) as [Hzero _].
      { apply (Hdim (a, u) (b, v)); [done|]. apply list_elem_of_lookup. eauto. }
      rewrite Hzero in Hs. injection Hs as <-.
      apply real_ge_true in Hge. lra.
    + destruct Hba as (i & j & v & u' & _ & Hi & Hj & s & Hs & Hge).
      simpl in *. apply Hrow in Hj as ->.
      destruct (sklearn_cosine_zero u v Hz Hu) as [_ Hzero].
      { apply (Hdim (a, u) (b, v)); [done|]. apply list_elem_of_lookup. eauto. }
      rewrite Hzero in Hs. injection Hs as <-.
      apply real_ge_true in Hge. lra.
Qed.
End SklearnFacts.

(** ** The input checks on binary64 rows *)

Section DoubleFacts.
Implicit Types (items : list (string * list float)) (threshold : float).

Lemma double_cosine_total x y :
  double_check_array x = true → double_check_array y = true →
  length x = length y →
  ∃ s, double_cosine_similarity x y = Ok s.
Proof.
  intros Hx Hy Hlen. unfold double_cosine_similarity. rewrite Hx, Hy. simpl.
  rewrite decide_True by done. eauto.
Qed.

Lemma double_cosine_unchecked x y :
  double_check_array x = false ∨ double_check_array y = false →
  double_cosine_similarity x y = Raise ShapeMismatch.
Proof.
  unfold double_cosine_similarity. intros [-> | ->]; [done|].
  by rewrite andb_false_r.
Qed.

Lemma double_cosine_mismatch x y :
  length x ≠ length y → double_cosine_similarity x y = Raise ShapeMismatch.
Proof.
  intros Hlen. unfold double_cosine_similarity.
  destruct (_ && _); [|done]. by rewrite decide_False.
Qed.

Lemma double_scan_raises items threshold i j x y :
  i ≠ j → items !! i = Some x → items !! j = Some y →
  double_cosine_similarity x.2 y.2 = Raise ShapeMismatch →
  double_cosine_similarity y.2 x.2 = Raise ShapeMismatch →
  compare_embeddings (Sim := sklearn_double) items threshold
  = Raise ShapeMismatch.
Proof.
  intros Hij Hi Hj Hxy Hyx.
  assert (∃ e, compare_embeddings (Sim := sklearn_double) items threshold
               = Raise e) as [[] Hraise]; [|done].
  destruct (Nat.lt_total i j) as [Hlt|[->|Hlt]]; [|done|].
  - by eapply (compare_embeddings_raises (Sim := sklearn_double));
      [exact Hlt|exact Hi|exact Hj|exact Hxy].
  - by eapply (compare_embeddings_raises (Sim := sklearn_double));
      [exact Hlt|exact Hj|exact Hi|exact Hyx].
Qed.

(** X14.  On binary64 rows: when every row has an entry and only finite
    entries and all rows have one length, the scan completes at every
    threshold; when the input has two or more items and some row has no
    entry or an entry that is not finite, or two rows differ in length, the
    call raises. *)
Theorem rounded_scan_completes_on_checked_rows items threshold :
  ((∀ x, x ∈ items → double_check_array x.2 = true) →
   (∀ x y, x ∈ items → y ∈ items → length x.2 = length y.2) →
   ∃ clusters,
     compare_embeddings (Sim := sklearn_double) items threshold = Ok clusters) ∧
  (2 ≤ length items →
   (∃ x, x ∈ items ∧ double_check_array x.2 = false) ∨
   (∃ x y, x ∈ items ∧ y ∈ items ∧ length x.2 ≠ length y.2) →
   compare_embeddings (Sim := sklearn_double) items threshold
   = Raise ShapeMismatch).
Proof.
  split.
  - intros Hchecked Hdim.
    destruct (scan_total (Sim := sklearn_double) threshold
                (all_pairs (Sim := sklearn_double) items) ([], 0))
      as [[clusters n] Hscan].
    + intros p q [Hp Hq]%all_pairs_members.
      apply double_cosine_total; [by apply Hchecked..|by apply Hdim].
    + exists clusters. apply compare_embeddings_scan. by exists n.
  - intros Hlen [(x & [i Hi]%list_elem_of_lookup & Hbad)
                |(x & y & [i Hi]%list_elem_of_lookup
                        & [j Hj]%list_elem_of_lookup & Hne)].
    + destruct (lookup_lt_is_Some_2 items (if decide (i = 0) then 1 else 0))
        as [y Hj]; [case_decide; lia|].
      apply (double_scan_raises items threshold i
               (if decide (i = 0) then 1 else 0) x y);
        [case_decide; lia|done|done|..];
        apply double_cosine_unchecked; auto.
    + apply (double_scan_raises items threshold i j x y);
        [congruence|done|done|..]; by apply double_cosine_mismatch.
Qed.
End DoubleFacts.

(** ** The report *)

Section Report.
Context `{Sim : Similarity}.
Implicit Types (threshold : score) (items : list item) (order : set_order).




End Report.

(** The specification's scenario, run on its table of similarities. *)
Example scenario_run :
  compare_embeddings (Sim := precomputed scenario_matrix) scenario_items (6 # 10)
  = Ok [(0, {["a"; "b"; "c"]})]%nat.
Proof. vm_compute. reflexivity. Qed.

(** The merged cluster keeps the id of file i's cluster, here the younger
    one: a-d is cluster 0, b-c is cluster 1, and the pair b-d leaves id 1. *)
Example bridge_run :
  compare_embeddings (Sim := precomputed bridge_matrix) scenario_items (6 # 10)
  = Ok [(1, {["a"; "b"; "c"; "d"]})]%nat.
Proof. vm_compute. reflexivity. Qed.


(** The input [zero_vector_items] holds a zero-norm row, and the call
    completes with an empty registry instead of failing. *)
Lemma zero_vector_not_rejected :
  (∃ p, p ∈ zero_vector_items ∧ row_norm p.2 = 0%R) ∧
  compare_embeddings (Sim := sklearn) zero_vector_items (6 / 10)%R = Ok [] ∧
  ∀ e, compare_embeddings (Sim := sklearn) zero_vector_items (6 / 10)%R ≠ Raise e.
Proof.
  assert (Hz : row_norm [0%R] = 0%R).
  { unfold row_norm. rewrite dot_cons, dot_nil_l.
    replace (0 * 0 + 0)%R with 0%R by lra. apply sqrt_0. }
  assert (Hrun :
    compare_embeddings (Sim := sklearn) zero_vector_items (6 / 10)%R = Ok []).
  { apply (compare_embeddings_scan (Sim := sklearn)). exists 0.
    apply (scan_no_match (Sim := sklearn)).
    intros p q [= -> ->]%list_elem_of_singleton. exists 0%R. split.
    - by apply (sklearn_cosine_zero [0%R] [1%R]).
    - apply real_ge_false. lra. }
  split; [|split].
  - exists ("a.npy", [0%R]). split; [by left|done].
  - exact Hrun.
  - intros e. by rewrite Hrun.
Qed.

(** ** Rounded scores *)

(** Two equal rows need not score 1: the rounded score can fall below it or
    rise above it. *)
Example double_score_below_one :
  double_cosine_similarity [1; 2]%float [1; 2]%float
  = Ok 0x1.fffffffffffffp-1%float.
Proof. vm_compute. reflexivity. Qed.

Example double_score_above_one :
  double_cosine_similarity [1; 5]%float [1; 5]%float = Ok above_one ∧
  double_cosine_similarity [1; 5]%float [-1; -5]%float
  = Ok (PrimFloat.opp above_one).
Proof. split; vm_compute; reflexivity. Qed.

(** A zero row scores 0 and the scan on it completes with nothing
    clustered; a row without entries or with an infinite entry is
    refused. *)
Example double_score_edge_rows :
  double_cosine_similarity [0]%float [1]%float = Ok 0%float ∧
  compare_embeddings (Sim := sklearn_double)
    [("a.npy", [0]%float); ("b.npy", [1]%float)] 0x1.3333333333333p-1%float
    = Ok [] ∧
  double_cosine_similarity [] [] = Raise ShapeMismatch ∧
  double_cosine_similarity [infinity] [1]%float = Raise ShapeMismatch.
Proof. repeat split; vm_compute; reflexivity. Qed.

(** The threshold is above 1, and the two files are clustered; the
    threshold is -1, the input has two items, and nothing is clustered. *)
Lemma rounded_score_crosses_unit_threshold :
  PrimFloat.ltb 1 above_one = true ∧
  compare_embeddings (Sim := sklearn_double) same_row_items above_one
    = Ok [(0, {["a.npy"; "b.npy"]})] ∧
  PrimFloat.leb (-1) (-1) = true ∧
  2 ≤ length opposite_row_items ∧
  compare_embeddings (Sim := sklearn_double) opposite_row_items (-1)%float
    = Ok [].
Proof. repeat split; vm_compute; (reflexivity || lia). Qed.

(** The pair b-d is processed when a-d is cluster 0 and b-c is cluster 1:
    file i is b, and the merged cluster keeps id 1 while id 0, registered
    first, is deleted. *)
Lemma merge_keeps_later_registered_id :
  reachable (Sim := precomputed bridge_matrix) scenario_items (6 # 10)
    [(("a", 0), ("b", 1)); (("a", 0), ("c", 2)); (("a", 0), ("d", 3));
     (("b", 1), ("c", 2))]
    ([(0, {["a"; "d"]}); (1, {["b"; "c"]})], 2) ∧
  find_cluster "b" [(0, {["a"; "d"]}); (1, {["b"; "c"]})] = Some 1 ∧
  find_cluster "d" [(0, {["a"; "d"]}); (1, {["b"; "c"]})] = Some 0 ∧
  process_pair (Sim := precomputed bridge_matrix) (6 # 10) ("b", 1) ("d", 3)
    ([(0, {["a"; "d"]}); (1, {["b"; "c"]})], 2)
  = Ok ([(1, {["a"; "b"; "c"; "d"]})], 2).
Proof.
  split; [|repeat split; vm_compute; reflexivity].
  exists [(("b", 1), ("d", 3)); (("c", 2), ("d", 3))].
  split; vm_compute; reflexivity.
Qed.

(** ** The theorems at concrete inputs *)

Lemma scenario_names_NoDup : NoDup scenario_items.*1.
Proof. apply (bool_decide_unpack _). vm_compute. exact I. Qed.

Lemma scenario_similar_a_b :
  similar (Sim := precomputed scenario_matrix) scenario_items (6 # 10) "a" "b".
Proof.
  exists 0, 1, 0, 1. split; [lia|]. do 2 (split; [reflexivity|]).
  exists (9 # 10). split; reflexivity.
Qed.

Lemma scenario_similar_b_c :
  similar (Sim := precomputed scenario_matrix) scenario_items (6 # 10) "b" "c".
Proof.
  exists 1, 2, 1, 2. split; [lia|]. do 2 (split; [reflexivity|]).
  exists (7 # 10). split; reflexivity.
Qed.

Lemma compare_embeddings_connected_components_witness :
  NoDup scenario_items.*1 ∧
  compare_embeddings (Sim := precomputed scenario_matrix) scenario_items (6 # 10)
    = Ok [(0, {["a"; "b"; "c"]})] ∧
  ∃ k c, (k, c) ∈ [(0, ({["a"; "b"; "c"]} : cluster))] ∧
         "a" ∈ c ∧ "b" ∈ c ∧ "c" ∈ c.
Proof.
  split; [exact scenario_names_NoDup|]. split; [exact scenario_run|].
  destruct (compare_embeddings_connected_components
              (Sim := precomputed scenario_matrix)
              scenario_items (6 # 10) [(0, {["a"; "b"; "c"]})]
              scenario_names_NoDup scenario_run) as (_ & _ & _ & Hchain).
  destruct (Hchain "a" "b" "c") as (k & c & Hin & Ha & Hb & Hc & _).
  - left. exact scenario_similar_a_b.
  - left. exact scenario_similar_b_c.
  - exists k, c. done.
Defined.

Lemma scenario_reachable_after_two :
  reachable (Sim := precomputed scenario_matrix) scenario_items (6 # 10)
    [(("a", 0), ("b", 1)); (("a", 0), ("c", 2))] ([(0, {["a"; "b"]})], 1).
Proof.
  exists [(("a", 0), ("d", 3)); (("b", 1), ("c", 2)); (("b", 1), ("d", 3));
          (("c", 2), ("d", 3))].
  split; vm_compute; reflexivity.
Qed.

Lemma clusters_disjoint_throughout_witness :
  reachable (Sim := precomputed scenario_matrix) scenario_items (6 # 10)
    [(("a", 0), ("b", 1)); (("a", 0), ("c", 2))] ([(0, {["a"; "b"]})], 1) ∧
  in_exactly_one [(0, ({["a"; "b"]} : cluster))] "a".
Proof.
  split; [exact scenario_reachable_after_two|].
  destruct (clusters_disjoint_throughout (Sim := precomputed scenario_matrix)
              scenario_items (6 # 10)) as (_ & Halong & _).
  destruct (Halong _ _ scenario_reachable_after_two) as [_ Hone].
  apply (Hone "a" "b"). left. exists ("a", 0), ("b", 1).
  split; [by left|]. split; [|done]. exists (9 # 10). split; reflexivity.
Defined.

Lemma clusters_have_two_members_witness :
  NoDup scenario_items.*1 ∧ 2 ≤ size ({["a"; "b"; "c"]} : cluster).
Proof.
  split; [exact scenario_names_NoDup|].
  destruct (clusters_have_two_members (Sim := precomputed scenario_matrix)
              scenario_items (6 # 10) scenario_names_NoDup) as (_ & Hfinal & _).
  apply (Hfinal _ scenario_run 0). by left.
Defined.

Lemma Qle_bool_chain (a b c : Q) :
  Qle_bool b a = true → Qle_bool c b = true → Qle_bool c a = true.
Proof. rewrite !Qle_bool_iff. intros Hba Hcb. by apply (Qle_trans c b a). Qed.

Lemma scenario_run_high :
  compare_embeddings (Sim := precomputed scenario_matrix) scenario_items (8 # 10)
  = Ok [(0, {["a"; "b"]})].
Proof. vm_compute. reflexivity. Qed.

Lemma threshold_antitone_witness :
  Qle_bool (6 # 10) (8 # 10) = true ∧
  covered_count [(0, ({["a"; "b"]} : cluster))]
  ≤ covered_count [(0, ({["a"; "b"; "c"]} : cluster))].
Proof.
  split; [reflexivity|].
  apply (threshold_antitone (Sim := precomputed scenario_matrix)
           scenario_items (6 # 10) (8 # 10) _ _
           Qle_bool_chain eq_refl scenario_run scenario_run_high).
Defined.

Lemma merge_keeps_id_of_first_witness :
  ∃ clusters',
    process_pair (Sim := precomputed bridge_matrix) (6 # 10) ("b", 1) ("d", 3)
      ([(0, {["a"; "d"]}); (1, {["b"; "c"]})], 2) = Ok (clusters', 2) ∧
    dict_get 1 clusters' = Some ({["b"; "c"]} ∪ {["a"; "d"]}) ∧
    dict_get 0 clusters' = None.
Proof.
  destruct (merge_keeps_id_of_first (Sim := precomputed bridge_matrix)
              (6 # 10) ("b", 1) ("d", 3)
              [(0, {["a"; "d"]}); (1, {["b"; "c"]})] 2 (8 # 10) 1 0
              {["b"; "c"]} {["a"; "d"]})
    as [Hmerge _]; [reflexivity..|].
  destruct Hmerge as (clusters' & Hstep & Hki & Hkj & _); [lia|].
  exists clusters'. done.
Defined.


Lemma mismatched_items_lengths :
  ("a.npy", [1%R]) ∈ mismatched_items ∧
  ("b.npy", [1%R; 2%R]) ∈ mismatched_items ∧
  length [1%R] ≠ length [1%R; 2%R].
Proof. split; [by left|]. split; [right; by left|]. simpl. lia. Qed.

Lemma dimension_mismatch_raises_witness :
  compare_embeddings (Sim := sklearn) mismatched_items (6 / 10)%R
  = Raise ShapeMismatch.
Proof.
  destruct mismatched_items_lengths as (Hp & Hq & Hlen).
  apply (dimension_mismatch_raises mismatched_items (6 / 10)%R
           ("a.npy", [1%R]) ("b.npy", [1%R; 2%R]) iteration_order_a Hp Hq Hlen).
Defined.

Lemma zero_vector_items_same_dimension : same_dimension zero_vector_items.
Proof.
  intros p q Hp%list_elem_of_In Hq%list_elem_of_In. simpl in *.
  intuition subst; reflexivity.
Qed.

Lemma zero_vector_items_not_empty : rows_not_empty zero_vector_items.
Proof.
  intros p Hp%list_elem_of_In. simpl in *. by intuition subst.
Qed.

Lemma zero_vector_scores_zero_witness :
  same_dimension zero_vector_items ∧ rows_not_empty zero_vector_items ∧
  sklearn_cosine_similarity [0%R] [1%R] = Ok 0%R.
Proof.
  split; [exact zero_vector_items_same_dimension|].
  split; [exact zero_vector_items_not_empty|].
  destruct (zero_vector_scores_zero zero_vector_items (6 / 10)%R
              zero_vector_items_same_dimension zero_vector_items_not_empty)
    as (_ & _ & Hzero & _).
  apply (Hzero ("a.npy", [0%R]) ("b.npy", [1%R])).
  - by left.
  - right. by left.
  - simpl. unfold row_norm. rewrite dot_cons, dot_nil_l.
    replace (0 * 0 + 0)%R with 0%R by lra. apply sqrt_0.
Defined.

(** * Further properties of the program *)

(** ** Ids, coverage, failure and input order *)

Section RunFacts.
Context `{Sim : Similarity}.
Implicit Types (threshold : score) (items : list item) (st : state).

Lemma StronglySorted_filter_lt (P : nat → Prop) `{!∀ k, Decision (P k)} (l : list nat) :
  StronglySorted lt l → StronglySorted lt (filter P l).
Proof.
  induction 1 as [|k l Hl IH Hk]; [constructor|].
  rewrite filter_cons. case_decide; [|done].
  constructor; [done|]. apply Forall_forall. intros k' [_ Hin]%list_elem_of_filter.
  by apply (proj1 (Forall_forall _ _) Hk).
Qed.

Lemma ascending_length (l : list nat) (m n : nat) :
  StronglySorted lt l → Forall (λ k, m ≤ k < n) l → length l ≤ n - m.
Proof.
  intros Hsorted. revert m. induction Hsorted as [|k l Hl IH Hk]; intros m Hrange.
  - simpl. lia.
  - apply Forall_cons in Hrange as [Hkm Hrange]. simpl.
    assert (length l ≤ n - S k); [|lia]. apply IH.
    apply Forall_forall. intros k' Hin.
    pose proof (proj1 (Forall_forall _ _) Hk k' Hin).
    pose proof (proj1 (Forall_forall _ _) Hrange k' Hin). simpl in *. lia.
Qed.

Lemma register_match_ids_ascending file_i file_j st :
  ids_ascending st → ids_ascending (register_match file_i file_j st).
Proof.
  destruct st as [reg n]. intros [Hsorted Hbelow]. simpl in *.
  unfold register_match.
  destruct (find_cluster file_i reg) as [ki|]; destruct (find_cluster file_j reg) as [kj|].
  - case_decide; [|done]. split; simpl.
    + rewrite dict_del_keys, dict_alter_keys. by apply StronglySorted_filter_lt.
    + rewrite dict_del_keys, dict_alter_keys. apply Forall_forall.
      intros k [_ Hk]%list_elem_of_filter.
      exact (proj1 (Forall_forall _ _) Hbelow k Hk).
  - split; simpl; by rewrite dict_alter_keys.
  - split; simpl; by rewrite dict_alter_keys.
  - assert (n ∉ reg.*1) as Hfresh.
    { intros Hin. pose proof (proj1 (Forall_forall _ _) Hbelow n Hin). simpl in *. lia. }
    rewrite dict_set_fresh by done. split; simpl; rewrite fmap_app.
    + apply StronglySorted_app. split; [|split; [done|repeat constructor]].
      intros k1 k2 Hk1 ->%list_elem_of_singleton.
      exact (proj1 (Forall_forall _ _) Hbelow k1 Hk1).
    + apply Forall_app. split; [|repeat constructor].
      eapply Forall_impl; [exact Hbelow|]. simpl. lia.
Qed.

Lemma scan_ids_ascending threshold pairs st st' :
  ids_ascending st → scan threshold pairs st = Ok st' → ids_ascending st'.
Proof.
  revert st. induction pairs as [|[x y] pairs IH]; intros st Hst.
  - by intros [= <-].
  - rewrite scan_cons. unfold process_pair.
    destruct (cosine_similarity x.2 y.2) as [s|e]; [|done]. rewrite bind_Ok.
    destruct (score_ge s threshold); rewrite bind_Ok; apply IH; [|done].
    by apply register_match_ids_ascending.
Qed.

(** X1.  When the two loops complete, the ids of the registry are strictly
    increasing in dict order and all below the counter, so there are at most
    as many clusters as the counter says, and the report lists the clusters by
    ascending id. *)
Theorem cluster_ids_ascending items threshold clusters n (order : set_order) :
  outer_loop threshold items ([], 0) = Ok (clusters, n) →
  StronglySorted lt clusters.*1 ∧
  Forall (λ k, k < n) clusters.*1 ∧
  length clusters ≤ n ∧
  print_clusters order items threshold = Ok (report order clusters) ∧
  StronglySorted lt (report order clusters).*1.
Proof.
  intros Hrun. pose proof Hrun as Hscan. rewrite outer_loop_scan in Hscan.
  destruct (scan_ids_ascending threshold _ ([], 0) _ (conj (SSorted_nil _) (Forall_nil_2 _)) Hscan)
    as [Hsorted Hbelow]. simpl in *.
  assert (Hreport : (report order clusters).*1 = clusters.*1).
  { unfold report. rewrite <-list_fmap_compose. done. }
  split; [done|]. split; [done|]. split; [|split].
  - rewrite <-(length_fmap fst), <-(Nat.sub_0_r n).
    apply ascending_length; [done|]. eapply Forall_impl; [exact Hbelow|].
    simpl. lia.
  - unfold print_clusters, compare_embeddings. by rewrite Hrun.
  - by rewrite Hreport.
Qed.

Lemma similar_names items threshold a b :
  similar items threshold a b → a ∈ items.*1 ∧ b ∈ items.*1.
Proof.
  intros (i & j & u & v & _ & Hi & Hj & _).
  split; apply list_elem_of_fmap; [exists (a, u)|exists (b, v)];
    (split; [done|]); apply list_elem_of_lookup; eauto.
Qed.

Lemma covered_touched E st a :
  reg_inv E st → a ∈ covered st.1 ↔ ∃ b, sc E a b.
Proof.
  intros Hinv. rewrite elem_of_covered. split.
  - intros (k & c & Hin & Ha). exact (inv_touched _ _ Hinv _ _ _ Hin Ha).
  - intros [b Hab].
    destruct (reg_inv_touched_in _ _ _ _ Hinv Hab) as (k & c & Hin & Ha & _).
    by exists k, c.
Qed.

Lemma covered_names items threshold clusters :
  compare_embeddings items threshold = Ok clusters →
  covered clusters ⊆ list_to_set items.*1.
Proof.
  intros [n Hinv]%compare_embeddings_inv a [b Hab]%(covered_touched _ _ _ Hinv).
  apply elem_of_list_to_set.
  destruct Hab as [Hab|Hba]; [by apply (similar_names items threshold a b)|
                              by apply (similar_names items threshold b a)].
Qed.

(** X2.  In the final registry a file is a member of some cluster exactly when
    its row scored at least the threshold against the row of another file;
    every member is a file name of the input, and a file that matched nothing
    is left out. *)
Theorem covered_iff_matched items threshold clusters :
  compare_embeddings items threshold = Ok clusters →
  (∀ a, a ∈ covered clusters ↔ ∃ b, sc (similar items threshold) a b) ∧
  covered clusters ⊆ list_to_set items.*1.
Proof.
  intros Hrun. split; [|by eapply covered_names].
  destruct (compare_embeddings_inv _ _ _ Hrun) as [n Hinv].
  intros a. exact (covered_touched _ _ a Hinv).
Qed.

Lemma covered_count_at_least (clusters : registry) :
  (∀ k c, (k, c) ∈ clusters → 2 ≤ size c) →
  2 * length clusters ≤ covered_count clusters.
Proof.
  induction clusters as [|[k c] rest IH]; intros Hsize; [done|].
  rewrite covered_count_cons. simpl length.
  pose proof (Hsize k c ltac:(by left)).
  assert (2 * length rest ≤ covered_count rest); [|lia].
  apply IH. intros k' c' Hin. apply (Hsize k' c'). by right.
Qed.

(** X3.  For distinct file names the clusters hold at least two files each and
    at most all files together: twice the number of clusters is at most the
    number of covered files, which is at most the number of input items. *)
Theorem cluster_count_bound items threshold clusters :
  NoDup items.*1 →
  compare_embeddings items threshold = Ok clusters →
  2 * length clusters ≤ covered_count clusters ∧
  covered_count clusters ≤ length items.
Proof.
  intros Hnd Hrun. pose proof Hrun as [n Hinv]%compare_embeddings_inv. split.
  - apply covered_count_at_least. intros k c Hin.
    eapply reg_inv_size; [exact Hinv| |exact Hin].
    intros a. by apply similar_irrefl.
  - rewrite (covered_count_size _ _ Hinv : covered_count clusters = _).
    rewrite <-(length_fmap fst items), <-(size_list_to_set (C := cluster)) by done.
    apply subseteq_size. by eapply covered_names.
Qed.

(** After a matching pair has been registered, both files have the same
    owner. *)
Lemma register_match_same_owner E file_i file_j st :
  reg_inv E st →
  ∃ k, find_cluster file_i (register_match file_i file_j st).1 = Some k ∧
       find_cluster file_j (register_match file_i file_j st).1 = Some k.
Proof.
  intros Hinv.
  pose proof (register_match_inv E (λ a b, E a b ∨ (a = file_i ∧ b = file_j))
                file_i file_j st Hinv ltac:(done)) as Hinv'.
  destruct (inv_complete _ _ Hinv' file_i file_j) as (k & c & Hin & Hi & Hj);
    [by right|].
  exists k. split.
  - destruct (find_cluster_is_Some _ _ _ _ Hin Hi) as [k' Hfind]. rewrite Hfind.
    destruct (find_cluster_Some _ _ _ Hfind) as (c' & Hin' & Hi').
    by destruct (reg_inv_same_entry _ _ _ _ _ _ _ Hinv' Hin' Hin Hi' Hi) as [-> _].
  - destruct (find_cluster_is_Some _ _ _ _ Hin Hj) as [k' Hfind]. rewrite Hfind.
    destruct (find_cluster_Some _ _ _ Hfind) as (c' & Hin' & Hj').
    by destruct (reg_inv_same_entry _ _ _ _ _ _ _ Hinv' Hin' Hin Hj' Hj) as [-> _].
Qed.

(** X4.  Processing the same pair a second time changes nothing: from a state
    of the scan, the state after the body of the loop ran on a pair is left as
    it is by running the body on that pair again. *)
Theorem process_pair_idempotent items threshold done st x y st' :
  reachable items threshold done st →
  process_pair threshold x y st = Ok st' →
  process_pair threshold x y st' = Ok st' ∧
  register_match x.1 y.1 (register_match x.1 y.1 st) = register_match x.1 y.1 st.
Proof.
  intros Hinv%reachable_inv Hstep.
  assert (Hidem : register_match x.1 y.1 (register_match x.1 y.1 st)
                  = register_match x.1 y.1 st).
  { destruct (register_match_same_owner _ x.1 y.1 st Hinv) as (k & Hi & Hj).
    destruct (register_match x.1 y.1 st) as [reg' n'] eqn:Hst'. simpl in *.
    unfold register_match. rewrite Hi, Hj. rewrite decide_False; [done|]. by intros ?. }
  split; [|done]. unfold process_pair in *.
  destruct (cosine_similarity x.2 y.2) as [s|e]; [|done]. rewrite bind_Ok in *.
  destruct (score_ge s threshold); injection Hstep as <-; [|done].
  by rewrite Hidem.
Qed.

Lemma scan_raise_inv threshold pairs st e :
  scan threshold pairs st = Raise e →
  ∃ done x y todo,
    pairs = done ++ (x, y) :: todo ∧
    (∀ x' y', (x', y') ∈ done → ∃ s, cosine_similarity x'.2 y'.2 = Ok s) ∧
    cosine_similarity x.2 y.2 = Raise e.
Proof.
  revert st. induction pairs as [|[x y] pairs IH]; intros st; [done|].
  rewrite scan_cons. unfold process_pair.
  destruct (cosine_similarity x.2 y.2) as [s|e'] eqn:Hs.
  - rewrite bind_Ok. intros Hrest.
    assert (∃ st1, (if score_ge s threshold then Ok (register_match x.1 y.1 st) else Ok st) = Ok st1)
      as [st1 Hst1] by (destruct (score_ge s threshold); eauto).
    rewrite Hst1, bind_Ok in Hrest.
    destruct (IH _ Hrest) as (done & x0 & y0 & todo & -> & Hdone & Hbad).
    exists ((x, y) :: done), x0, y0, todo. split; [done|]. split; [|done].
    intros x' y' [[= -> ->]|Hin]%elem_of_cons; [by exists s|by apply Hdone].
  - intros [= <-]. exists [], x, y, pairs. split; [done|]. split; [|done].
    intros x' y' Hin. by apply elem_of_nil in Hin.
Qed.

Lemma scan_first_failure threshold done x y todo st e :
  (∀ x' y', (x', y') ∈ done → ∃ s, cosine_similarity x'.2 y'.2 = Ok s) →
  cosine_similarity x.2 y.2 = Raise e →
  scan threshold (done ++ (x, y) :: todo) st = Raise e.
Proof.
  intros Hdone Hbad. rewrite scan_app.
  destruct (scan_total threshold done st Hdone) as [st1 ->].
  rewrite bind_Ok, scan_cons. unfold process_pair. by rewrite Hbad.
Qed.

(** X5.  The scan raises exactly when the similarity function raises on some
    pair, and then with the exception of the first such pair in loop order,
    every pair before it having been scored; whether it raises does not depend
    on the threshold. *)
Theorem failure_is_first_bad_pair items t1 t2 e :
  (compare_embeddings items t1 = Raise e ↔
   ∃ done x y todo,
     all_pairs items = done ++ (x, y) :: todo ∧
     (∀ x' y', (x', y') ∈ done → ∃ s, cosine_similarity x'.2 y'.2 = Ok s) ∧
     cosine_similarity x.2 y.2 = Raise e) ∧
  (compare_embeddings items t1 = Raise e ↔
   compare_embeddings items t2 = Raise e).
Proof.
  assert (Hiff : ∀ t, compare_embeddings items t = Raise e ↔
    ∃ done x y todo,
     all_pairs items = done ++ (x, y) :: todo ∧
     (∀ x' y', (x', y') ∈ done → ∃ s, cosine_similarity x'.2 y'.2 = Ok s) ∧
     cosine_similarity x.2 y.2 = Raise e).
  { intros t. unfold compare_embeddings. rewrite outer_loop_scan. split.
    - destruct (scan t (all_pairs items) ([], 0)) as [st|e'] eqn:Hscan; [done|].
      intros [= ->]. by apply (scan_raise_inv t _ ([], 0)).
    - intros (done & x & y & todo & -> & Hdone & Hbad).
      by rewrite (scan_first_failure t done x y todo ([], 0) e). }
  split; [apply Hiff|]. by rewrite !Hiff.
Qed.

Lemma sc_similar_linked items threshold a b :
  (∀ u v, cosine_similarity u v = cosine_similarity v u) →
  NoDup items.*1 →
  sc (similar items threshold) a b ↔ linked items threshold a b.
Proof.
  intros Hsym Hnd.
  assert (Hflip : ∀ x y : item, matches threshold x y → matches threshold y x).
  { intros x y (s & Hs & Hge). exists s. by rewrite Hsym. }
  split.
  - intros [Hab|Hba].
    + pose proof Hab as (i & j & u & v & Hij & Hi & Hj & Hm). split.
      * intros <-. by apply (similar_irrefl items threshold a Hnd).
      * exists u, v. repeat split; [apply list_elem_of_lookup; eauto..|done].
    + pose proof Hba as (i & j & v & u & Hij & Hi & Hj & Hm). split.
      * intros <-. by apply (similar_irrefl items threshold a Hnd).
      * exists u, v. repeat split; [apply list_elem_of_lookup; eauto..|].
        by apply (Hflip (b, v) (a, u)).
  - intros (Hne & u & v & [i Hi]%list_elem_of_lookup & [j Hj]%list_elem_of_lookup & Hm).
    destruct (Nat.lt_total i j) as [Hij|[->|Hji]].
    + left. by exists i, j, u, v.
    + congruence.
    + right. exists j, i, v, u. repeat split; [done..|].
      by apply (Hflip (a, u) (b, v)).
Qed.

Lemma linked_Permutation items items' threshold a b :
  items ≡ₚ items' → linked items threshold a b → linked items' threshold a b.
Proof.
  intros Hperm (Hne & u & v & Hu & Hv & Hm). split; [done|].
  exists u, v. by rewrite <-Hperm.
Qed.

Lemma rtsc_sc_mono {A} (R R' : relation A) x y :
  (∀ a b, sc R a b → sc R' a b) → rtsc R x y → rtsc R' x y.
Proof.
  intros Hsub. induction 1 as [|x y z Hxy _ IH]; [done|].
  by apply (rtc_l _ _ y); [apply Hsub|].
Qed.

Lemma sc_similar_Permutation items items' threshold a b :
  (∀ u v, cosine_similarity u v = cosine_similarity v u) →
  NoDup items.*1 → items ≡ₚ items' →
  sc (similar items threshold) a b → sc (similar items' threshold) a b.
Proof.
  intros Hsym Hnd Hperm Hab.
  apply sc_similar_linked; [done|by rewrite <-Hperm|].
  apply (linked_Permutation items items'); [done|].
  by apply sc_similar_linked.
Qed.

(** The clusters of one run are clusters of the other. *)
Lemma clusters_Permutation_incl items items' threshold clusters clusters' :
  (∀ u v, cosine_similarity u v = cosine_similarity v u) →
  NoDup items.*1 → items ≡ₚ items' →
  compare_embeddings items threshold = Ok clusters →
  compare_embeddings items' threshold = Ok clusters' →
  ∀ c, c ∈ clusters.*2 → c ∈ clusters'.*2.
Proof.
  intros Hsym Hnd Hperm [n Hinv]%compare_embeddings_inv
    [n' Hinv']%compare_embeddings_inv c ([k c0] & -> & Hin)%list_elem_of_fmap.
  simpl.
  assert (Hnd' : NoDup items'.*1) by (by rewrite <-Hperm).
  destruct (set_choose_L c0 (inv_nonempty _ _ Hinv _ _ Hin)) as [a Ha].
  destruct (inv_touched _ _ Hinv _ _ _ Hin Ha) as [b Hab].
  apply (sc_similar_Permutation items items') in Hab; [|done..].
  destruct (reg_inv_touched_in _ _ _ _ Hinv' Hab) as (k' & c' & Hin' & Ha' & _).
  assert (c0 = c') as ->.
  { apply set_eq. intros d. split; intros Hd.
    - eapply reg_inv_closed; [exact Hinv'|exact Hin'|exact Ha'|].
      eapply rtsc_sc_mono; [|exact (inv_sound _ _ Hinv _ _ _ _ Hin Ha Hd)].
      intros ??. by apply sc_similar_Permutation.
    - eapply reg_inv_closed; [exact Hinv|exact Hin|exact Ha|].
      eapply rtsc_sc_mono; [|exact (inv_sound _ _ Hinv' _ _ _ _ Hin' Ha' Hd)].
      intros ??. by apply (sc_similar_Permutation items' items). }
  apply list_elem_of_fmap. by exists (k', c').
Qed.

Lemma Permutation_completes items items' threshold clusters :
  (∀ u v, cosine_similarity u v = cosine_similarity v u) →
  NoDup items.*1 → items ≡ₚ items' →
  compare_embeddings items threshold = Ok clusters →
  ∃ clusters', compare_embeddings items' threshold = Ok clusters'.
Proof.
  intros Hsym Hnd Hperm Hrun.
  destruct (compare_embeddings items' threshold) as [clusters'|e] eqn:Hrun';
    [by exists clusters'|exfalso].
  assert (Hnd' : NoDup items'.*1) by (by rewrite <-Hperm).
  unfold compare_embeddings in Hrun'. rewrite outer_loop_scan in Hrun'.
  destruct (scan threshold (all_pairs items') ([], 0)) as [st|e'] eqn:Hscan; [done|].
  destruct (scan_raise_inv _ _ _ _ Hscan) as (done & x & y & todo & Hsplit & _ & Hbad).
  assert ((x, y) ∈ all_pairs items') as (i' & j' & Hij' & Hi' & Hj')%elem_of_all_pairs.
  { rewrite Hsplit. apply elem_of_app. right. by left. }
  assert (x.1 ≠ y.1) as Hne.
  { intros Heq. assert (i' = j'); [|lia].
    eapply (NoDup_lookup _ i' j' x.1 Hnd'); rewrite list_lookup_fmap;
      [by rewrite Hi'|by rewrite Hj', Heq]. }
  assert (x ∈ items) as [i Hi]%list_elem_of_lookup.
  { rewrite Hperm. apply list_elem_of_lookup. eauto. }
  assert (y ∈ items) as [j Hj]%list_elem_of_lookup.
  { rewrite Hperm. apply list_elem_of_lookup. eauto. }
  destruct (Nat.lt_total i j) as [Hij|[->|Hji]].
  - destruct (compare_embeddings_raises items threshold i j x y e' Hij Hi Hj Hbad)
      as [e'' Hraise]. congruence.
  - congruence.
  - rewrite Hsym in Hbad.
    destruct (compare_embeddings_raises items threshold j i y x e' Hji Hj Hi Hbad)
      as [e'' Hraise]. congruence.
Qed.

(** X6.  For a symmetric similarity function and distinct file names, a run on
    a rearranged input completes when the run on the input does, and finds the
    same member sets; only ids and order of the clusters can differ. *)
Theorem grouping_independent_of_order items items' threshold clusters :
  (∀ u v, cosine_similarity u v = cosine_similarity v u) →
  NoDup items.*1 → items ≡ₚ items' →
  compare_embeddings items threshold = Ok clusters →
  ∃ clusters',
    compare_embeddings items' threshold = Ok clusters' ∧
    ∀ c, c ∈ clusters.*2 ↔ c ∈ clusters'.*2.
Proof.
  intros Hsym Hnd Hperm Hrun.
  destruct (Permutation_completes items items' threshold clusters Hsym Hnd Hperm Hrun)
    as [clusters' Hrun'].
  exists clusters'. split; [done|]. intros c. split.
  - by apply (clusters_Permutation_incl items items' threshold).
  - apply (clusters_Permutation_incl items' items threshold); try done.
    by rewrite <-Hperm.
Qed.
End RunFacts.

(** ** Clusters along the scan *)

Section Growth.
Context `{Sim : Similarity}.
Implicit Types (threshold : score) (items : list item) (st : state).

Lemma scan_grows threshold done todo st st' k c :
  reg_inv (edge_in threshold done) st →
  scan threshold todo st = Ok st' →
  (k, c) ∈ st.1 → ∃ k' c', (k', c') ∈ st'.1 ∧ c ⊆ c'.
Proof.
  revert done st k c. induction todo as [|[x y] todo IH]; intros done st k c Hinv.
  - intros [= <-] Hin. by exists k, c.
  - rewrite scan_cons.
    destruct (process_pair threshold x y st) as [st1|e] eqn:Hstep; [|done].
    rewrite bind_Ok. intros Hrest Hin.
    destruct (process_pair_grows _ _ _ _ _ _ _ _ Hinv Hstep Hin)
      as (k1 & c1 & Hin1 & Hsub1).
    destruct (IH (done ++ [(x, y)]) st1 k1 c1) as (k' & c' & Hin' & Hsub');
      [by eapply process_pair_inv|done..|].
    exists k', c'. split; [done|]. set_solver.
Qed.

(** X7.  Every cluster of a state the scan passes through is contained in a
    cluster of the final registry: files once grouped stay grouped, and no
    file is dropped. *)
Theorem grouped_files_stay_grouped items threshold done st clusters :
  reachable items threshold done st →
  compare_embeddings items threshold = Ok clusters →
  ∀ k c, (k, c) ∈ st.1 → ∃ k' c', (k', c') ∈ clusters ∧ c ⊆ c'.
Proof.
  intros Hreach [n Hscan]%compare_embeddings_scan k c Hin.
  pose proof (reachable_inv _ _ _ _ Hreach) as Hinv.
  destruct Hreach as (todo & Hsplit & Hdone).
  rewrite Hsplit, scan_app, Hdone, bind_Ok in Hscan.
  exact (scan_grows threshold done todo st (clusters, n) k c Hinv Hscan Hin).
Qed.
End Growth.

(** ** Paths and directory listings *)

Example basename_ex : basename "/content/embeddings/spk1.npy" = "spk1.npy".
Proof. reflexivity. Qed.
Example join_ex1 : join "/content/embeddings/" "spk1.npy" = "/content/embeddings/spk1.npy".
Proof. reflexivity. Qed.
Example join_ex2 : join "out" "spk1.wav" = "out/spk1.wav".
Proof. reflexivity. Qed.
Example join_ex3 : join "out" "/abs.wav" = "/abs.wav".
Proof. reflexivity. Qed.
Example join_ex4 : join "" "x.wav" = "x.wav".
Proof. reflexivity. Qed.
Example endswith_ex : endswith ".wav" "wav_list.txt" = false ∧ endswith ".wav" "a.wav" = true ∧ endswith ".wav" "wav" = false.
Proof. repeat split. Qed.

Section Paths.
Implicit Types (a b d f p s : string).

Lemma app_cons c s t : String c s +:+ t = String c (s +:+ t).
Proof. reflexivity. Qed.

Lemma app_nil_l s : "" +:+ s = s.
Proof. reflexivity. Qed.

Lemma string_app_assoc s t u : (s +:+ t) +:+ u = s +:+ (t +:+ u).
Proof. induction s as [|c s IH]; [done|]. by rewrite !app_cons, IH. Qed.

Lemma rfind_sep_app_sep d f :
  no_sep f → rfind_sep (d +:+ String "/" f) = Some (String.length d).
Proof.
  intros Hf. induction d as [|c d IH].
  - rewrite app_nil_l. simpl. by rewrite Hf.
  - rewrite app_cons. simpl. by rewrite IH.
Qed.

Lemma string_drop_app d s : string_drop (String.length d) (d +:+ s) = s.
Proof. induction d as [|c d IH]; [by destruct s|]. by rewrite app_cons. Qed.

Lemma basename_app_sep d f : no_sep f → basename (d +:+ String "/" f) = f.
Proof.
  intros Hf. unfold basename. rewrite rfind_sep_app_sep by done.
  change (S (String.length d)) with (String.length (String "/" d)).
  clear Hf. induction d as [|c d IH]; [done|].
  rewrite app_cons. simpl in *. exact IH.
Qed.

Lemma basename_no_sep f : no_sep f → basename f = f.
Proof. intros Hf. unfold basename. rewrite Hf. by destruct f. Qed.

Lemma endswith_sep d :
  endswith "/" d = true → ∃ d', d = d' +:+ "/".
Proof.
  unfold endswith. induction d as [|c d IH]; [done|].
  destruct d as [|c' d].
  - simpl. destruct (Ascii.eqb_spec c "/"%char) as [->|]; [|by intros [=]].
    intros _. by exists "".
  - intros Hend. destruct IH as [d' Hd'].
    { simpl in *. by rewrite Nat.sub_0_r. }
    exists (String c d'). by rewrite app_cons, <-Hd'.
Qed.

Lemma no_sep_not_absolute f : no_sep f → startswith "/" f = false.
Proof.
  unfold no_sep. destruct f as [|c f]; [done|]. intros Hf. simpl in Hf.
  destruct (rfind_sep f); [done|].
  destruct (Ascii.eqb_spec c "/"%char) as [->|Hne]; [done|].
  change (Ascii.eqb "/"%char c && startswith "" f = false).
  rewrite Ascii.eqb_sym. by apply Ascii.eqb_neq in Hne as ->.
Qed.

Lemma basename_of_join d f : no_sep f → basename (join d f) = f.
Proof.
  intros Hf. unfold join. rewrite no_sep_not_absolute by done.
  destruct (String.eqb_spec d "") as [->|Hd]; simpl.
  - rewrite app_nil_l. by apply basename_no_sep.
  - destruct (endswith "/" d) eqn:Hend.
    + apply endswith_sep in Hend as [d' ->].
      rewrite string_app_assoc. by apply basename_app_sep.
    + by apply basename_app_sep.
Qed.

Lemma join_inj d f1 f2 :
  no_sep f1 → no_sep f2 → join d f1 = join d f2 → f1 = f2.
Proof.
  intros H1 H2 Heq.
  by rewrite <-(basename_of_join d f1), <-(basename_of_join d f2), Heq.
Qed.

(** X9.  For a name without separator, the base name of the name joined to a
    directory is the name itself, whatever the directory string; joining to
    one directory therefore sends different names to different paths. *)
Theorem join_basename_round_trip d f :
  no_sep f →
  basename (join d f) = f ∧
  ∀ f', no_sep f' → join d f = join d f' → f = f'.
Proof.
  intros Hf. split; [by apply basename_of_join|].
  intros f' Hf'. by apply join_inj.
Qed.

Lemma Forall_no_sep_filter (P : string → Prop) `{!∀ f, Decision (P f)} listing :
  Forall no_sep listing → Forall no_sep (filter P listing).
Proof.
  intros Hall. apply Forall_forall. intros f [_ Hf]%list_elem_of_filter.
  exact (proj1 (Forall_forall _ _) Hall f Hf).
Qed.

Lemma map_basename_of_join d (names : list string) :
  Forall no_sep names → map basename (map (join d) names) = names.
Proof.
  induction 1 as [|f names Hf _ IH]; [done|].
  simpl. by rewrite basename_of_join, IH.
Qed.

Lemma NoDup_map_join d (names : list string) :
  Forall no_sep names → NoDup names → NoDup (map (join d) names).
Proof.
  intros Hall Hnd. apply NoDup_fmap_2_strong; [|done].
  intros f1 f2 H1 H2. apply join_inj.
  - exact (proj1 (Forall_forall _ _) Hall f1 H1).
  - exact (proj1 (Forall_forall _ _) Hall f2 H2).
Qed.
End Paths.

Section Directory.
Context `{Sim : Similarity}.
Implicit Types (np_load : string → embedding) (listing : list string).
Implicit Types (threshold : score).

Lemma load_embeddings_names np_load (files : list string) :
  (load_embeddings np_load files).*1 = map basename files.
Proof. unfold load_embeddings. by rewrite <-list_fmap_compose. Qed.

Lemma directory_names np_load d listing :
  Forall no_sep listing →
  (load_embeddings np_load (embedding_files d listing)).*1
  = filter (λ file, endswith ".npy" file) listing.
Proof.
  intros Hall. rewrite load_embeddings_names. unfold embedding_files.
  apply map_basename_of_join. by apply Forall_no_sep_filter.
Qed.

(** X10.  When the listing holds plain names, the identifiers the scan works
    on are the entries of the listing that end in .npy, in listing order; they
    are distinct when the listing is. *)
Theorem identifiers_are_npy_names np_load d listing :
  Forall no_sep listing →
  (load_embeddings np_load (embedding_files d listing)).*1
  = filter (λ file, endswith ".npy" file) listing ∧
  (NoDup listing →
   NoDup (load_embeddings np_load (embedding_files d listing)).*1).
Proof.
  intros Hall. split; [by apply directory_names|].
  intros Hnd. rewrite directory_names by done. by apply NoDup_filter.
Qed.

(** X11.  For a directory listing of distinct plain names, every cluster of a
    completed run has at least two members, and every member is an entry of
    the listing that ends in .npy. *)
Theorem directory_clusters np_load d listing threshold clusters :
  Forall no_sep listing → NoDup listing →
  compare_embeddings_directory np_load d listing threshold = Ok clusters →
  ∀ k c, (k, c) ∈ clusters →
    2 ≤ size c ∧
    ∀ a, a ∈ c → a ∈ listing ∧ endswith ".npy" a = true.
Proof.
  intros Hall Hnd Hrun k c Hin. unfold compare_embeddings_directory in Hrun.
  pose proof (directory_names np_load d listing Hall) as Hnames.
  destruct (compare_embeddings_inv _ _ _ Hrun) as [n Hinv]. split.
  - eapply reg_inv_size; [exact Hinv| |exact Hin].
    intros a. apply similar_irrefl. rewrite Hnames. by apply NoDup_filter.
  - intros a Ha.
    assert (a ∈ covered clusters) as Hcov.
    { apply elem_of_covered. by exists k, c. }
    apply (covered_names _ _ _ Hrun) in Hcov.
    rewrite Hnames in Hcov.
    apply elem_of_list_to_set, list_elem_of_filter in Hcov as [Hnpy Hlisted].
    split; [done|]. by apply Is_true_true.
Qed.
End Directory.

Section Resample.
Implicit Types (listing : list string).

Lemma resample_exported wav_directory resampled_directory listing :
  Forall no_sep listing →
  exported (resample_wav_files wav_directory resampled_directory listing)
  = map (λ file, (join wav_directory file, join resampled_directory file))
        (filter (λ file, endswith ".wav" file) listing).
Proof.
  intros Hall%(Forall_no_sep_filter (λ file, endswith ".wav" file)).
  unfold resample_wav_files. simpl. rewrite <-list_fmap_compose.
  apply Forall_fmap_ext_1. eapply Forall_impl; [exact Hall|].
  intros file Hfile. simpl. by rewrite basename_of_join.
Qed.

Lemma resample_loop_prefix io resampled_directory wav_files :
  (resample_loop io resampled_directory wav_files).1.1
  `prefix_of` map (λ wav_file,
                     (wav_file, join resampled_directory (basename wav_file)))
                  wav_files.
Proof.
  induction wav_files as [|wav_file rest IH]; [done|]. simpl.
  destruct (from_wav_returns io wav_file); [|apply prefix_nil].
  destruct (export_returns io wav_file _); [|apply prefix_nil].
  destruct (write_returns io _); [|apply prefix_cons, prefix_nil].
  destruct (resample_loop io resampled_directory rest) as [[exports text] raised].
  simpl in *. by apply prefix_cons.
Qed.

Lemma resample_loop_returned io resampled_directory wav_files exports text :
  resample_loop io resampled_directory wav_files = (exports, text, None) →
  exports = map (λ wav_file,
                   (wav_file, join resampled_directory (basename wav_file)))
                wav_files ∧
  text = foldr (λ wav_file text,
                  join resampled_directory (basename wav_file)
                  +:+ newline +:+ text) "" wav_files.
Proof.
  revert exports text.
  induction wav_files as [|wav_file rest IH]; intros exports text; simpl.
  - by intros [= <- <-].
  - destruct (from_wav_returns io wav_file); [|done].
    destruct (export_returns io wav_file _); [|done].
    destruct (write_returns io _); [|done].
    destruct (resample_loop io resampled_directory rest)
      as [[exports' text'] raised].
    intros [= <- <- ->]. by destruct (IH _ _ eq_refl) as [<- <-].
Qed.

Lemma resample_loop_completes io resampled_directory wav_files :
  (∀ wav_file, wav_file ∈ wav_files →
     from_wav_returns io wav_file = true ∧
     export_returns io wav_file
       (join resampled_directory (basename wav_file)) = true ∧
     write_returns io (join resampled_directory (basename wav_file)) = true) →
  (resample_loop io resampled_directory wav_files).2 = None.
Proof.
  induction wav_files as [|wav_file rest IH]; intros Hall; [done|]. simpl.
  destruct (Hall wav_file) as (-> & -> & ->); [by left|].
  destruct (resample_loop io resampled_directory rest)
    as [[exports text] raised] eqn:Hloop.
  simpl. apply IH. intros file Hfile. apply Hall. by right.
Qed.

(** X12.  For a listing of plain names: the exports a call has done when it
    ends are the first of the planned ones, each entry that ends in .wav
    being exported from its path in the source directory to the same name in
    the target directory, in listing order; a call that returns has done all
    of them, has written the target paths to the list file one per line, and
    returns the path of the list file; the call returns when the target
    directory is not the empty path and every library call returns; when
    the target directory cannot be made nothing is exported and the list
    file is not opened; and every export keeps the file name, a file being
    written over itself when source and target directory are the same
    string. *)
Theorem resample_keeps_names io wav_directory resampled_directory listing :
  listdir io wav_directory = Some listing →
  Forall no_sep listing →
  run_exported (resample_wav_files_run io wav_directory resampled_directory)
  `prefix_of`
    map (λ file, (join wav_directory file, join resampled_directory file))
        (filter (λ file, endswith ".wav" file) listing) ∧
  (∀ path,
     run_end (resample_wav_files_run io wav_directory resampled_directory)
     = Returned path →
     path = join resampled_directory "wav_list.txt" ∧
     run_exported (resample_wav_files_run io wav_directory resampled_directory)
     = map (λ file, (join wav_directory file, join resampled_directory file))
           (filter (λ file, endswith ".wav" file) listing) ∧
     list_file (resample_wav_files_run io wav_directory resampled_directory)
     = Some (foldr (λ file text,
                      join resampled_directory file +:+ newline +:+ text) ""
                   (filter (λ file, endswith ".wav" file) listing)) ∧
     resample_wav_files wav_directory resampled_directory listing
     = {| exported :=
            run_exported
              (resample_wav_files_run io wav_directory resampled_directory);
          wav_list_text :=
            default ""
              (list_file
                 (resample_wav_files_run io wav_directory resampled_directory));
          wav_list_path := path |}) ∧
  (resampled_directory ≠ "" →
   makedirs_returns io resampled_directory = true →
   open_returns io (join resampled_directory "wav_list.txt") = true →
   (∀ file, file ∈ listing → endswith ".wav" file = true →
      from_wav_returns io (join wav_directory file) = true ∧
      export_returns io (join wav_directory file)
        (join resampled_directory file) = true ∧
      write_returns io (join resampled_directory file) = true) →
   run_end (resample_wav_files_run io wav_directory resampled_directory)
   = Returned (join resampled_directory "wav_list.txt")) ∧
  (resampled_directory = "" ∨ makedirs_returns io resampled_directory = false →
   resample_wav_files_run io wav_directory resampled_directory
   = {| run_exported := []; list_file := None;
        run_end := Raised Makedirs |}) ∧
  (∀ source destination,
     (source, destination)
       ∈ run_exported
           (resample_wav_files_run io wav_directory resampled_directory) →
     basename destination = basename source ∧
     basename source ∈ listing ∧ endswith ".wav" (basename source) = true ∧
     (wav_directory = resampled_directory → destination = source)).
Proof.
  intros Hlist Hall.
  pose proof (resample_exported wav_directory resampled_directory
                listing Hall) as Hexp.
  pose proof (Forall_no_sep_filter (λ file, endswith ".wav" file) listing Hall)
    as Hwav.
  assert (wav_list_text
            (resample_wav_files wav_directory resampled_directory listing)
          = foldr (λ file text,
                     join resampled_directory file +:+ newline +:+ text) ""
                  (filter (λ file, endswith ".wav" file) listing)) as Htext.
  { unfold resample_wav_files. simpl. clear Hexp.
    induction Hwav as [|file files Hfile _ IH]; [done|].
    simpl. by rewrite basename_of_join, IH. }
  pose proof (resample_loop_prefix io resampled_directory
                (map (join wav_directory)
                     (filter (λ file, endswith ".wav" file) listing)))
    as Hprefix.
  change (map (λ wav_file, (wav_file, _)) _)
    with (exported
            (resample_wav_files wav_directory resampled_directory listing))
    in Hprefix.
  rewrite Hexp in Hprefix.
  assert (run_exported
            (resample_wav_files_run io wav_directory resampled_directory)
          `prefix_of`
            map (λ file,
                   (join wav_directory file, join resampled_directory file))
                (filter (λ file, endswith ".wav" file) listing)) as Hrun.
  { unfold resample_wav_files_run. rewrite Hlist.
    destruct (negb _ && _); [|apply prefix_nil].
    destruct (open_returns io _); [|apply prefix_nil].
    destruct (resample_loop io resampled_directory _)
      as [[exports text] raised]. exact Hprefix. }
  split; [exact Hrun|]. split; [|split; [|split]].
  - intros path. unfold resample_wav_files_run. rewrite Hlist.
    destruct (negb _ && _); [|done].
    destruct (open_returns io _); [|done].
    destruct (resample_loop io resampled_directory _)
      as [[exports text] raised] eqn:Hloop.
    destruct raised as [call|]; [done|]. simpl. intros [= <-].
    apply resample_loop_returned in Hloop as [-> ->].
    change (map (λ wav_file, (wav_file, _)) _)
      with (exported
              (resample_wav_files wav_directory resampled_directory listing)).
    change (foldr _ "" (map (join wav_directory) _))
      with (wav_list_text
              (resample_wav_files wav_directory resampled_directory listing)).
    rewrite <-Hexp, <-Htext. done.
  - intros Hne Hmk Hopen Hcalls. unfold resample_wav_files_run. rewrite Hlist.
    apply String.eqb_neq in Hne. rewrite Hne, Hmk, Hopen. simpl.
    pose proof (resample_loop_completes io resampled_directory
                  (map (join wav_directory)
                       (filter (λ file, endswith ".wav" file) listing)))
      as Hdone.
    destruct (resample_loop io resampled_directory _)
      as [[exports text] raised]. simpl in Hdone. rewrite Hdone; [done|].
    intros wav_file (file & -> & Hfile)%list_elem_of_fmap.
    pose proof (proj1 (Forall_forall _ _) Hwav file Hfile) as Hsep.
    rewrite basename_of_join by done.
    apply list_elem_of_filter in Hfile as [Hext Hlisted].
    apply Hcalls; [done|]. by apply Is_true_true.
  - intros Hno. unfold resample_wav_files_run. rewrite Hlist.
    destruct Hno as [-> | ->]; [done|]. by rewrite andb_false_r.
  - intros source destination Hin.
    destruct Hrun as [later Hplan].
    assert ((source, destination)
              ∈ map (λ file, (join wav_directory file,
                              join resampled_directory file))
                    (filter (λ file, endswith ".wav" file) listing)) as Hplanned
      by (rewrite Hplan; apply elem_of_app; by left).
    apply list_elem_of_fmap in Hplanned as (file & [= -> ->] & Hfile).
    pose proof (proj1 (Forall_forall _ _) Hwav file Hfile) as Hsep.
    rewrite !basename_of_join by done.
    apply list_elem_of_filter in Hfile as [Hext Hlisted].
    split; [done|]. split; [done|]. split; [by apply Is_true_true|].
    by intros <-.
Qed.

(** X13.  For a listing of distinct plain names, no two exports share a target
    path, and no export is written to the path of the list file. *)
Theorem resample_destinations_distinct wav_directory resampled_directory listing :
  Forall no_sep listing → NoDup listing →
  NoDup (exported
           (resample_wav_files wav_directory resampled_directory listing)).*2 ∧
  wav_list_path (resample_wav_files wav_directory resampled_directory listing)
  ∉ (exported
       (resample_wav_files wav_directory resampled_directory listing)).*2.
Proof.
  intros Hall Hnd.
  pose proof (Forall_no_sep_filter (λ file, endswith ".wav" file) listing Hall)
    as Hwav.
  rewrite resample_exported by done. rewrite <-list_fmap_compose.
  change (snd ∘ _) with (join resampled_directory). split.
  - apply NoDup_map_join; [done|]. by apply NoDup_filter.
  - unfold resample_wav_files. simpl.
    intros (file & Heq & Hfile)%list_elem_of_fmap.
    apply join_inj in Heq; [|done|exact (proj1 (Forall_forall _ _) Hwav file Hfile)].
    subst file. by apply list_elem_of_filter in Hfile as [Hext _].
Qed.
End Resample.

(** ** The further properties at concrete inputs *)

Lemma same_row_items_scores (i j : nat) (x y : string * list float) :
  i < j → same_row_items !! i = Some x → same_row_items !! j = Some y →
  cosine_similarity (Similarity := sklearn_double) x.2 y.2 = Ok above_one.
Proof.
  intros Hij Hi Hj. destruct i as [|[|i]], j as [|[|j]]; try lia; try done.
  injection Hi as <-. injection Hj as <-. vm_compute. reflexivity.
Qed.

Lemma threshold_beyond_scores_witness :
  compare_embeddings (Sim := sklearn_double) same_row_items 2%float = Ok [] ∧
  compare_embeddings (Sim := sklearn_double) same_row_items 1%float
  = Ok [(0, list_to_set same_row_items.*1)].
Proof.
  destruct (threshold_beyond_scores (Sim := sklearn_double) same_row_items
              2%float) as (Hruns & Hhigh & _).
  destruct (threshold_beyond_scores (Sim := sklearn_double) same_row_items
              1%float) as (_ & _ & Hlow).
  split.
  - destruct Hruns as [clusters Hrun].
    { intros i j x y Hij Hi Hj. exists above_one.
      by apply (same_row_items_scores i j). }
    rewrite Hrun. f_equal. apply Hhigh; [|exact Hrun].
    intros i j x y s Hij Hi Hj Hs.
    assert (Ok s = Ok above_one) as Heq
      by (rewrite <- Hs; exact (same_row_items_scores i j x y Hij Hi Hj)).
    injection Heq as ->. vm_compute. reflexivity.
  - apply Hlow; [|simpl; lia].
    intros i j x y Hij Hi Hj. exists above_one.
    split; [by apply (same_row_items_scores i j)|vm_compute; reflexivity].
Defined.

Lemma bridge_outer_loop :
  outer_loop (Sim := precomputed bridge_matrix) (6 # 10) scenario_items ([], 0)
  = Ok ([(1, {["a"; "b"; "c"; "d"]})], 2).
Proof. vm_compute. reflexivity. Qed.

Lemma cluster_ids_ascending_witness :
  StronglySorted lt [1] ∧ length [(1, ({["a"; "b"; "c"; "d"]} : cluster))] ≤ 2.
Proof.
  destruct (cluster_ids_ascending (Sim := precomputed bridge_matrix)
              scenario_items (6 # 10) _ _ iteration_order_a bridge_outer_loop)
    as (Hsorted & _ & Hlen & _).
  split; [exact Hsorted|exact Hlen].
Defined.

Lemma covered_iff_matched_witness :
  "a" ∈ covered [(0, ({["a"; "b"; "c"]} : cluster))] ∧
  covered [(0, ({["a"; "b"; "c"]} : cluster))] ⊆ list_to_set scenario_items.*1.
Proof.
  destruct (covered_iff_matched (Sim := precomputed scenario_matrix)
              scenario_items (6 # 10) _ scenario_run) as [Hiff Hnames].
  split; [|exact Hnames]. apply Hiff. exists "b". left. exact scenario_similar_a_b.
Defined.

Lemma cluster_count_bound_witness :
  2 * length [(0, ({["a"; "b"; "c"]} : cluster))] ≤ length scenario_items.
Proof.
  destruct (cluster_count_bound (Sim := precomputed scenario_matrix)
              scenario_items (6 # 10) _ scenario_names_NoDup scenario_run)
    as [Hlow Hhigh].
  exact (Nat.le_trans _ _ _ Hlow Hhigh).
Defined.

Lemma scenario_step_b_c :
  process_pair (Sim := precomputed scenario_matrix) (6 # 10) ("b", 1) ("c", 2)
    ([(0, {["a"; "b"]})], 1) = Ok ([(0, {["a"; "b"; "c"]})], 1).
Proof. vm_compute. reflexivity. Qed.

Lemma process_pair_idempotent_witness :
  process_pair (Sim := precomputed scenario_matrix) (6 # 10) ("b", 1) ("c", 2)
    ([(0, {["a"; "b"; "c"]})], 1) = Ok ([(0, {["a"; "b"; "c"]})], 1).
Proof.
  apply (process_pair_idempotent (Sim := precomputed scenario_matrix)
           scenario_items (6 # 10) _ _ ("b", 1) ("c", 2) _
           scenario_reachable_after_two scenario_step_b_c).
Defined.

Lemma bridge_matrix_sym (u v : nat) :
  cosine_similarity (Similarity := precomputed bridge_matrix) u v
  = cosine_similarity (Similarity := precomputed bridge_matrix) v u.
Proof.
  simpl. f_equal.
  destruct u as [|[|[|[|u]]]], v as [|[|[|[|v]]]]; try reflexivity.
  simpl. repeat case_decide; (done || lia).
Qed.

Lemma bridge_run_reversed :
  compare_embeddings (Sim := precomputed bridge_matrix)
    (reverse scenario_items) (6 # 10)
  = Ok [(0, {["a"; "b"; "c"; "d"]})].
Proof. vm_compute. reflexivity. Qed.

Lemma grouping_independent_of_order_witness :
  compare_embeddings (Sim := precomputed bridge_matrix) scenario_items (6 # 10)
    = Ok [(1, {["a"; "b"; "c"; "d"]})] ∧
  ∃ clusters',
    compare_embeddings (Sim := precomputed bridge_matrix)
      (reverse scenario_items) (6 # 10) = Ok clusters' ∧
    ({["a"; "b"; "c"; "d"]} : cluster) ∈ clusters'.*2.
Proof.
  split; [exact bridge_run|].
  destruct (grouping_independent_of_order (Sim := precomputed bridge_matrix)
              scenario_items (reverse scenario_items) (6 # 10)
              [(1, {["a"; "b"; "c"; "d"]})]
              bridge_matrix_sym scenario_names_NoDup
              (symmetry (reverse_Permutation scenario_items)) bridge_run)
    as (clusters' & Hrun' & Hsame).
  exists clusters'. split; [exact Hrun'|]. apply Hsame. by left.
Defined.

Lemma grouped_files_stay_grouped_witness :
  ∃ k' c', (k', c') ∈ [(0, ({["a"; "b"; "c"]} : cluster))] ∧
           ({["a"; "b"]} : cluster) ⊆ c'.
Proof.
  apply (grouped_files_stay_grouped (Sim := precomputed scenario_matrix)
           scenario_items (6 # 10) _ _ _ scenario_reachable_after_two
           scenario_run 0). by left.
Defined.

Lemma join_basename_round_trip_witness :
  basename (join "/content/embeddings" "spk1.npy") = "spk1.npy".
Proof.
  destruct (join_basename_round_trip "/content/embeddings" "spk1.npy")
    as [Hbase _]; [reflexivity|exact Hbase].
Defined.

Lemma sample_listing_no_sep : Forall no_sep sample_listing.
Proof. repeat constructor. Qed.

Lemma sample_listing_NoDup : NoDup sample_listing.
Proof. apply (bool_decide_unpack _). vm_compute. exact I. Qed.

Lemma identifiers_are_npy_names_witness :
  (load_embeddings (Sim := precomputed scenario_matrix) sample_np_load
     (embedding_files "emb" sample_listing)).*1 = ["a.npy"; "b.npy"].
Proof.
  destruct (identifiers_are_npy_names (Sim := precomputed scenario_matrix)
              sample_np_load "emb" sample_listing sample_listing_no_sep)
    as [Hnames _].
  exact Hnames.
Defined.

Lemma sample_directory_run :
  compare_embeddings_directory (Sim := precomputed scenario_matrix)
    sample_np_load "emb" sample_listing (6 # 10)
  = Ok [(0, {["a.npy"; "b.npy"]})].
Proof. vm_compute. reflexivity. Qed.

Lemma directory_clusters_witness :
  2 ≤ size ({["a.npy"; "b.npy"]} : cluster) ∧
  ("a.npy" ∈ sample_listing ∧ endswith ".npy" "a.npy" = true).
Proof.
  destruct (directory_clusters (Sim := precomputed scenario_matrix)
              sample_np_load "emb" sample_listing (6 # 10) _
              sample_listing_no_sep sample_listing_NoDup sample_directory_run
              0 {["a.npy"; "b.npy"]}) as [Hsize Hmembers]; [by left|].
  split; [exact Hsize|]. apply Hmembers. set_solver.
Defined.

Lemma sample_wav_listing_no_sep : Forall no_sep sample_wav_listing.
Proof. repeat constructor. Qed.

Lemma sample_wav_listing_NoDup : NoDup sample_wav_listing.
Proof. apply (bool_decide_unpack _). vm_compute. exact I. Qed.

Lemma resample_keeps_names_witness :
  resample_wav_files_run sample_library "in" "out"
  = {| run_exported := [("in/a.wav", "out/a.wav"); ("in/b.wav", "out/b.wav")];
       list_file := Some ("out/a.wav" +:+ newline +:+ "out/b.wav" +:+ newline);
       run_end := Returned "out/wav_list.txt" |}.
Proof.
  destruct (resample_keeps_names sample_library "in" "out" sample_wav_listing
              eq_refl sample_wav_listing_no_sep)
    as (_ & Hreturned & Hcompletes & _).
  assert (run_end (resample_wav_files_run sample_library "in" "out")
          = Returned (join "out" "wav_list.txt")) as Hend
    by (apply Hcompletes; done).
  destruct (Hreturned _ Hend) as (_ & Hexports & Htext & _).
  destruct (resample_wav_files_run sample_library "in" "out")
    as [exports text ended].
  simpl in Hend, Hexports, Htext. rewrite Hend, Hexports, Htext.
  vm_compute. reflexivity.
Defined.

Lemma same_row_items_checked (x : string * list float) :
  x ∈ same_row_items → double_check_array x.2 = true.
Proof.
  intros Hx%list_elem_of_In. simpl in Hx. intuition subst; reflexivity.
Qed.

Lemma same_row_items_lengths (x y : string * list float) :
  x ∈ same_row_items → y ∈ same_row_items → length x.2 = length y.2.
Proof.
  intros Hx%list_elem_of_In Hy%list_elem_of_In. simpl in Hx, Hy.
  intuition subst; reflexivity.
Qed.

Lemma rounded_scan_completes_on_checked_rows_witness :
  (∃ clusters,
     compare_embeddings (Sim := sklearn_double) same_row_items 1%float
     = Ok clusters) ∧
  compare_embeddings (Sim := sklearn_double) not_a_number_items 1%float
  = Raise ShapeMismatch.
Proof.
  split.
  - apply (rounded_scan_completes_on_checked_rows same_row_items 1%float).
    + exact same_row_items_checked.
    + exact same_row_items_lengths.
  - apply (rounded_scan_completes_on_checked_rows not_a_number_items 1%float).
    + simpl. lia.
    + left. exists ("b.npy", [nan]). split; [by right; left|reflexivity].
Defined.

(** When b.wav cannot be decoded, a.wav has been exported and listed, and
    the call raises without returning a path. *)
Example resample_stops_at_damaged_file :
  resample_wav_files_run damaged_library "in" "out"
  = {| run_exported := [("in/a.wav", "out/a.wav")];
       list_file := Some ("out/a.wav" +:+ newline);
       run_end := Raised FromWav |}.
Proof. vm_compute. reflexivity. Qed.

Lemma resample_destinations_distinct_witness :
  "out/wav_list.txt" ∉ ["out/a.wav"; "out/b.wav"].
Proof.
  destruct (resample_destinations_distinct "out" "out" sample_wav_listing
              sample_wav_listing_no_sep sample_wav_listing_NoDup) as [_ Hlist].
  exact Hlist.
Defined.
